(** * WebAssembly representation and processing library (tools/optimizer/wasm.h)

    A shallow embedding of the expression tree, the text printer and the
    children-first walker of [wasm.h], with the properties the
    specification states about them.

    The expression tree, its printer and its walker come first; the arena
    and the printers of function types, functions, imports, exports, the
    table and the module come last.

    Conventions of the embedding:
    - [std::ostream] is the text written so far ([ostream := string]);
      [o << x] appends.
    - [abort()], a failed [assert], a call through a null pointer and a call
      of the pure virtual [Expression::print] end the process; a function
      that can reach one of them returns a [result], whose [Fatal] case says
      which one was reached.
    - [printFullLine] is declared to return the stream and has no [return]:
      what a call does when it gets to the end is undefined.  A build
      without optimisation goes back to the caller, an optimised one ends
      the process there; the printer takes what the build does as a
      parameter, [missing_return].
    - [Expression*] is [option Expression]; [None] is the null pointer.
    - [unsigned] fields are [N], [int] fields are [Z]. *)

From Stdlib Require Import ZArith NArith List String Ascii Bool Lia.
From Stdlib Require Import DecimalString DecimalZ DecimalN SpecFloat.
Import ListNotations.

Local Open Scope string_scope.
Local Open Scope N_scope.

(** ** Streams and fatal conditions *)

Definition ostream := string.

Inductive fatal : Type :=
| Aborted            (* abort() *)
| AssertionFailed    (* assert(e) with e false *)
| NullDereference    (* member access through a null pointer *)
| PureVirtualCall    (* Expression::print is pure virtual *)
| FlowedOffTheEnd.   (* the end of a function that has a value to return *)

Inductive result (A : Type) : Type :=
| Ok (a : A)
| Fatal (f : fatal).
Arguments Ok {A} a.
Arguments Fatal {A} f.

Definition bind {A B : Type} (r : result A) (k : A -> result B) : result B :=
  match r with
  | Ok a => k a
  | Fatal f => Fatal f
  end.

Declare Scope result_scope.
Notation "x <- r ;; k" := (bind r (fun x => k))
  (at level 61, r at next level, right associativity) : result_scope.
Local Open Scope result_scope.

Definition succeeds {A : Type} (r : result A) : Prop :=
  exists a, r = Ok a.

Definition is_fatal {A : Type} (r : result A) : Prop :=
  exists f, r = Fatal f.

(** The text [o << n] writes for a number of an integer type: its decimal
    digits, after a [-] if it is negative. *)
Definition decimal_int (n : Z) : string :=
  NilZero.string_of_int (Z.to_int n).

Definition decimal_unsigned (n : N) : string :=
  NilZero.string_of_uint (N.to_uint n).

Definition put_int (o : ostream) (n : Z) : ostream := o ++ decimal_int n.

Definition put_unsigned (o : ostream) (n : N) : ostream := o ++ decimal_unsigned n.

(** [unsigned] arithmetic of [indent++] and [indent--]. *)
Definition UINT_RANGE : N := 2 ^ 32.

Definition unsigned_inc (n : N) : N := (n + 1) mod UINT_RANGE.

Definition unsigned_dec (n : N) : N := (n + (UINT_RANGE - 1)) mod UINT_RANGE.

(** ** Utilities *)

Definition newline : string := String "010" EmptyString.

Definition doIndent (o : ostream) (indent : N) : ostream :=
  N.iter indent (fun o => o ++ "  ") o.

(** [indent] is passed by reference: the new value is returned with the
    stream. *)
Definition incIndent (o : ostream) (indent : N) : ostream * N :=
  (o ++ newline, unsigned_inc indent).

Definition decIndent (o : ostream) (indent : N) : ostream * N :=
  let indent := unsigned_dec indent in
  (doIndent o indent ++ ")", indent).

(** ** Basics *)

(** [cashew::IString] is declared outside this file; all that is used of it
    is the character pointer [str], which may be null, and [is()], which
    tests it. *)
Record IString : Type := mkIString { str : option string }.

Definition Name := IString.

Definition Name_of (s : string) : Name := mkIString (Some s).

Definition Name_null : Name := mkIString None.

Definition Name_is (name : Name) : bool :=
  match str name with
  | Some _ => true
  | None => false
  end.

(** [operator<<(std::ostream&, Name)] *)
Definition put_Name (o : ostream) (name : Name) : result ostream :=
  match str name with
  | None => Fatal AssertionFailed
  | Some s => Ok ((o ++ "$") ++ s)
  end.

(** ** Types *)

Inductive WasmType : Type := none | i32 | i64 | f32 | f64.

Definition printWasmType (type : WasmType) : string :=
  match type with
  | none => "none"
  | i32 => "i32"
  | i64 => "i64"
  | f32 => "f32"
  | f64 => "f64"
  end.

Definition getWasmTypeSize (type : WasmType) : result N :=
  match type with
  | none => Fatal Aborted
  | i32 => Ok 4
  | i64 => Ok 8
  | f32 => Ok 4
  | f64 => Ok 8
  end.

Definition isFloat (type : WasmType) : bool :=
  match type with
  | f32 | f64 => true
  | _ => false
  end.

Definition getWasmType (size : N) (float_ : bool) : result WasmType :=
  if size <? 4 then Ok i32
  else if size =? 4 then Ok (if float_ then f32 else i32)
  else if size =? 8 then Ok (if float_ then f64 else i64)
  else Fatal Aborted.

(** ** Colors

    [colors.h] is not part of this file.  Each of its functions writes a
    fixed escape sequence to the stream (nothing at all when colors are
    off), so the printer is parameterised by the six sequences. *)
Module Colors.

Record scheme : Type := mkScheme {
  red_code : string;
  magenta_code : string;
  orange_code : string;
  green_code : string;
  bold_code : string;
  normal_code : string
}.

Definition red (c : scheme) (o : ostream) : ostream := o ++ red_code c.
Definition magenta (c : scheme) (o : ostream) : ostream := o ++ magenta_code c.
Definition orange (c : scheme) (o : ostream) : ostream := o ++ orange_code c.
Definition green (c : scheme) (o : ostream) : ostream := o ++ green_code c.
Definition bold (c : scheme) (o : ostream) : ostream := o ++ bold_code c.
Definition normal (c : scheme) (o : ostream) : ostream := o ++ normal_code c.

(** Colors switched off: plain text. *)
Definition plain : scheme := mkScheme EmptyString EmptyString EmptyString EmptyString
           EmptyString EmptyString.

Definition esc (s : string) : string := String "027" s.

(** The usual terminal sequences. *)
Definition ansi : scheme :=
  mkScheme (esc "[31m") (esc "[35m") (esc "[33m") (esc "[32m")
           (esc "[1m") (esc "[0m").

End Colors.

(** ** Literals *)

(** IEEE 754 values; a [float] is a binary32 value and a [double] a binary64
    value of [spec_float]. *)
Definition float := spec_float.
Definition double := spec_float.

(** The implicit conversion of a [float] argument to [double]: exact. *)
Definition promote (f : float) : double :=
  match f with
  | S754_finite s m e => binary_round 53 1024 s m e
  | other => other
  end.

(** [struct Literal]: the tag [type] and the member of the union it selects.
    One constructor per C++ constructor. *)
Inductive Literal : Type :=
| Literal_default                 (* Literal() : type(WasmType::none) *)
| Literal_int32 (init : Z)        (* Literal(int32_t init) *)
| Literal_int64 (init : Z)        (* Literal(int64_t init) *)
| Literal_float (init : float)    (* Literal(float init) *)
| Literal_double (init : double). (* Literal(double init) *)

Definition Literal_type (literal : Literal) : WasmType :=
  match literal with
  | Literal_default => none
  | Literal_int32 _ => i32
  | Literal_int64 _ => i64
  | Literal_float _ => f32
  | Literal_double _ => f64
  end.

(** ** Operators *)

Inductive UnaryOp : Type :=
| Clz | Ctz | Popcnt                                   (* int *)
| Neg | Abs | Ceil | Floor | Trunc | Nearest | Sqrt.   (* float *)

Inductive BinaryOp : Type :=
| Add | Sub | Mul                                                   (* int or float *)
| DivS | DivU | RemS | RemU | And | Or | Xor | Shl | ShrU | ShrS    (* int *)
| Div | CopySign | Min | Max.                                       (* float *)

Inductive RelationalOp : Type :=
| Eq | Ne                                          (* int or float *)
| LtS | LtU | LeS | LeU | GtS | GtU | GeS | GeU    (* int *)
| Lt | Le | Gt | Ge.                               (* float *)

Inductive ConvertOp : Type :=
| ExtendSInt32 | ExtendUInt32 | WrapInt64 | TruncSFloat32 | TruncUFloat32
| TruncSFloat64 | TruncUFloat64 | ReinterpretFloat                       (* int *)
| ConvertSInt32 | ConvertUInt32 | ConvertSInt64 | ConvertUInt64
| PromoteFloat32 | DemoteFloat64 | ReinterpretInt.                       (* float *)

Inductive HostOp : Type := PageSize | MemorySize | GrowMemory | HasFeature.

(** ** Expressions *)

Record FunctionType : Type := mkFunctionType {
  FunctionType_name : Name;
  FunctionType_result : WasmType;
  FunctionType_params : list WasmType
}.

(** [Switch::Case], over the type of expressions. *)
Record Case (E : Type) : Type := mkCase {
  Case_value : Literal;
  Case_body : option E;
  Case_fallthru : bool
}.
Arguments mkCase {E} _ _ _.
Arguments Case_value {E} _.
Arguments Case_body {E} _.
Arguments Case_fallthru {E} _.

(** The classes derived from [Expression].  Every node starts with the
    field [type] of the base class; a pointer field is an [option]. *)
#[warnings="-register-all"]
Inductive Expression : Type :=
| Nop (type : WasmType)
| Block (type : WasmType) (name : Name) (list_ : list (option Expression))
| If (type : WasmType) (condition ifTrue ifFalse : option Expression)
| Loop (type : WasmType) (out in_ : Name) (body : option Expression)
| Label (type : WasmType) (name : Name)
| Break (type : WasmType) (name : Name) (condition value : option Expression)
| Switch (type : WasmType) (name : Name) (value : option Expression)
         (cases : list (Case Expression)) (default_ : option Expression)
| Call (type : WasmType) (target : Name) (operands : list (option Expression))
| CallImport (type : WasmType) (target : Name)
             (operands : list (option Expression))   (* : public Call *)
| CallIndirect (type : WasmType) (fnType : option FunctionType)
               (target : option Expression) (operands : list (option Expression))
| GetLocal (type : WasmType) (id : Name)
| SetLocal (type : WasmType) (id : Name) (value : option Expression)
| Load (type : WasmType) (bytes : N) (signed_ float_ : bool) (offset : Z)
       (align : N) (ptr : option Expression)
| Store (type : WasmType) (bytes : N) (float_ : bool) (offset : Z) (align : N)
        (ptr value : option Expression)
| Const (type : WasmType) (value : Literal)
| Unary (type : WasmType) (op : UnaryOp) (value : option Expression)
| Binary (type : WasmType) (op : BinaryOp) (left right : option Expression)
| Compare (type : WasmType) (op : RelationalOp) (inputType : WasmType)
          (left right : option Expression)
| Convert (type : WasmType) (op : ConvertOp) (value : option Expression)
| Host (type : WasmType) (op : HostOp) (operands : list (option Expression)).

Definition ExpressionList := list (option Expression).

(** The field [type] of the base class. *)
Definition Expression_type (e : Expression) : WasmType :=
  match e with
  | Nop t | Block t _ _ | If t _ _ _ | Loop t _ _ _ | Label t _
  | Break t _ _ _ | Switch t _ _ _ _ | Call t _ _ | CallImport t _ _
  | CallIndirect t _ _ _ | GetLocal t _ | SetLocal t _ _
  | Load t _ _ _ _ _ _ | Store t _ _ _ _ _ _ | Const t _ | Unary t _ _
  | Binary t _ _ _ | Compare t _ _ _ _ | Convert t _ _ | Host t _ _ => t
  end.

(** [Compare::Compare()]: the node as the constructor leaves [type], with the
    other fields as the producer fills them in. *)
Definition new_Compare (op : RelationalOp) (inputType : WasmType)
    (left right : option Expression) : Expression :=
  Compare i32 op inputType left right.

(** [Const::set], a member of [Const]: it leaves any other node alone. *)
Definition Const_set (this : Expression) (value_ : Literal) : Expression :=
  match this with
  | Const _ _ =>
      let value := value_ in
      let type := Literal_type value in
      Const type value
  | _ => this
  end.

Definition Const_value (e : Expression) : option Literal :=
  match e with
  | Const _ value => Some value
  | _ => None
  end.

(** ** The printer *)

Section Printer.

(** The color sequences of [colors.h] and [JSPrinter::numToString], the
    number formatter of the JS printer, which are declared elsewhere. *)
Variable colors : Colors.scheme.
Variable numToString : double -> string.

(** What the build does at the end of [printFullLine], where the [return]
    is missing: [Ok tt] to go back to the caller, [Fatal] to end the
    process. *)
Variable missing_return : result unit.

Definition prepareMajorColor (o : ostream) : ostream :=
  Colors.bold colors (Colors.red colors o).

Definition prepareColor (o : ostream) : ostream :=
  Colors.bold colors (Colors.magenta colors o).

Definition prepareMinorColor (o : ostream) : ostream :=
  Colors.orange colors o.

Definition restoreNormalColor (o : ostream) : ostream :=
  Colors.normal colors o.

(** [Literal::printDouble] *)
Definition printDouble (o : ostream) (d : double) : ostream :=
  let text := numToString d in
  match text with
  | String "."%char _ => (o ++ "0") ++ text
  | String "-"%char (String "."%char _ as text') => (o ++ "-0") ++ text'
  | _ => o ++ text
  end.

(** [operator<<(std::ostream&, Literal)] *)
Definition put_Literal (o : ostream) (literal : Literal) : result ostream :=
  let o := o ++ "(" in
  let o := (prepareMinorColor o ++ printWasmType (Literal_type literal))
             ++ ".const " in
  o <- match literal with
       | Literal_default => Fatal Aborted
       | Literal_int32 v => Ok (put_int o v)
       | Literal_int64 v => Ok (put_int o v)
       | Literal_float f => Ok (printDouble o (promote f))
       | Literal_double d => Ok (printDouble o d)
       end ;;
  let o := restoreNormalColor o in
  Ok (o ++ ")").

Definition printOpening (o : ostream) (str : string) (major : bool) : ostream :=
  let o := o ++ "(" in
  let o := if major then prepareMajorColor o else prepareColor o in
  let o := o ++ str in
  restoreNormalColor o.

Definition printMinorOpening (o : ostream) (str : string) : ostream :=
  let o := o ++ "(" in
  let o := prepareMinorColor o in
  let o := o ++ str in
  restoreNormalColor o.

Section PrintChildren.

(** The virtual [Expression::print], as seen by the helpers that call it
    on a child. *)
Variable print : Expression -> ostream -> N -> result ostream.

(** [printFullLine]: the indentation, the node, a line feed, and then the
    end of the function without a [return].  No caller uses the reference
    it is declared to return: each goes on with its own [o], so where the
    call comes back the stream is the one written here. *)
Definition printFullLine_with (o : ostream) (indent : N)
    (expression : option Expression) : result ostream :=
  let o := doIndent o indent in
  match expression with
  | None => Fatal NullDereference
  | Some e =>
      o <- print e o indent ;;
      let o := o ++ newline in
      _ <- missing_return ;;
      Ok o
  end.

(** [for (auto expression : list) printFullLine(o, indent, expression);] *)
Definition printLines_with (indent : N)
    : list (option Expression) -> ostream -> result ostream :=
  fix loop (l : list (option Expression)) (o : ostream) : result ostream :=
    match l with
    | [] => Ok o
    | expression :: rest =>
        o <- printFullLine_with o indent expression ;;
        loop rest o
    end.

(** [Call::printBody] *)
Definition printBody_with (target : Name) (operands : ExpressionList)
    (o : ostream) (indent : N) : result ostream :=
  o <- put_Name o target ;;
  match operands with
  | _ :: _ =>
      let '(o, indent) := incIndent o indent in
      o <- printLines_with indent operands o ;;
      Ok (fst (decIndent o indent))
  | [] => Ok (o ++ ")")
  end.

End PrintChildren.

(** The operator names written by the [switch] of each [print]. *)
Definition put_UnaryOp (o : ostream) (op : UnaryOp) : result ostream :=
  match op with
  | Clz => Ok (o ++ "clz")
  | Neg => Ok (o ++ "neg")
  | Floor => Ok (o ++ "floor")
  | _ => Fatal Aborted
  end.

Definition put_BinaryOp (o : ostream) (op : BinaryOp) : result ostream :=
  match op with
  | Add => Ok (o ++ "add")
  | Sub => Ok (o ++ "sub")
  | Mul => Ok (o ++ "mul")
  | DivS => Ok (o ++ "div_s")
  | DivU => Ok (o ++ "div_u")
  | RemS => Ok (o ++ "rem_s")
  | RemU => Ok (o ++ "rem_u")
  | And => Ok (o ++ "and")
  | Or => Ok (o ++ "or")
  | Xor => Ok (o ++ "xor")
  | Shl => Ok (o ++ "shl")
  | ShrU => Ok (o ++ "shr_u")
  | ShrS => Ok (o ++ "shr_s")
  | Div => Ok (o ++ "div")
  | CopySign => Ok (o ++ "copysign")
  | Min => Ok (o ++ "min")
  | Max => Ok (o ++ "max")
  end.

Definition put_RelationalOp (o : ostream) (op : RelationalOp) : result ostream :=
  match op with
  | Eq => Ok (o ++ "eq")
  | Ne => Ok (o ++ "ne")
  | LtS => Ok (o ++ "lt_s")
  | LtU => Ok (o ++ "lt_u")
  | LeS => Ok (o ++ "le_s")
  | LeU => Ok (o ++ "le_u")
  | GtS => Ok (o ++ "gt_s")
  | GtU => Ok (o ++ "gt_u")
  | GeS => Ok (o ++ "ge_s")
  | GeU => Ok (o ++ "ge_u")
  | Lt => Ok (o ++ "lt")
  | Le => Ok (o ++ "le")
  | Gt => Ok (o ++ "gt")
  | Ge => Ok (o ++ "ge")
  end.

Definition put_ConvertOp (o : ostream) (op : ConvertOp) : result ostream :=
  match op with
  | ConvertUInt32 => Ok (o ++ "f64.convert_u/i32")
  | ConvertSInt32 => Ok (o ++ "f64.convert_s/i32")
  | TruncSFloat64 => Ok (o ++ "i32.trunc_s/f64")
  | _ => Fatal Aborted
  end.

(** The width suffix of [Load::print] and [Store::print]. *)
Definition put_width (o : ostream) (bytes : N) : result ostream :=
  if bytes =? 1 then Ok (o ++ "8")
  else if bytes =? 2 then Ok (o ++ "16")
  else Fatal Aborted.

(** [assert(e)] *)
Definition assert (e : bool) : result unit :=
  if e then Ok tt else Fatal AssertionFailed.

(** [Expression::print] with the overrides of the derived classes.  [Label]
    and [Host] do not override it. *)
Fixpoint print (this : Expression) (o : ostream) (indent : N) {struct this}
    : result ostream :=
  match this with
  | Nop _ => Ok (printMinorOpening o "nop" ++ ")")
  | Block _ name list_ =>
      let o := printOpening o "block" false in
      o <- (if Name_is name then put_Name (o ++ " ") name else Ok o) ;;
      let '(o, indent) := incIndent o indent in
      o <- printLines_with print indent list_ o ;;
      Ok (fst (decIndent o indent))
  | If _ condition ifTrue ifFalse =>
      let o := printOpening o "if" false in
      let '(o, indent) := incIndent o indent in
      o <- printFullLine_with print o indent condition ;;
      o <- printFullLine_with print o indent ifTrue ;;
      o <- match ifFalse with
           | Some _ => printFullLine_with print o indent ifFalse
           | None => Ok o
           end ;;
      Ok (fst (decIndent o indent))
  | Loop _ out in_ body =>
      let o := printOpening o "loop" false in
      o <- (if Name_is out then
              o <- put_Name (o ++ " ") out ;;
              if Name_is in_ then put_Name (o ++ " ") in_ else Ok o
            else Ok o) ;;
      let '(o, indent) := incIndent o indent in
      o <- printFullLine_with print o indent body ;;
      Ok (fst (decIndent o indent))
  | Label _ _ => Fatal PureVirtualCall
  | Break _ name condition value =>
      o <- put_Name (printOpening o "break " false) name ;;
      let '(o, indent) := incIndent o indent in
      o <- match condition with
           | Some _ => printFullLine_with print o indent condition
           | None => Ok o
           end ;;
      o <- match value with
           | Some _ => printFullLine_with print o indent value
           | None => Ok o
           end ;;
      Ok (fst (decIndent o indent))
  | Switch _ name value _ _ =>
      o <- put_Name (printOpening o "switch " false) name ;;
      let '(o, indent) := incIndent o indent in
      o <- printFullLine_with print o indent value ;;
      let o := (o ++ "TODO: cases/default") ++ newline in
      Ok (fst (decIndent o indent))
  | Call _ target operands =>
      let o := printOpening o "call " false in
      printBody_with print target operands o indent
  | CallImport _ target operands =>
      let o := printOpening o "call_import " false in
      printBody_with print target operands o indent
  | CallIndirect _ fnType target operands =>
      let o := printOpening o "call_indirect " false in
      o <- match fnType with
           | None => Fatal NullDereference
           | Some type => put_Name o (FunctionType_name type)
           end ;;
      let '(o, indent) := incIndent o indent in
      o <- printFullLine_with print o indent target ;;
      o <- printLines_with print indent operands o ;;
      Ok (fst (decIndent o indent))
  | GetLocal _ id =>
      o <- put_Name (printOpening o "get_local " false) id ;;
      Ok (o ++ ")")
  | SetLocal _ id value =>
      o <- put_Name (printOpening o "set_local " false) id ;;
      let '(o, indent) := incIndent o indent in
      o <- printFullLine_with print o indent value ;;
      Ok (fst (decIndent o indent))
  | Load _ bytes signed_ float_ offset align ptr =>
      let o := o ++ "(" in
      type <- getWasmType bytes float_ ;;
      let o := (prepareColor o ++ printWasmType type) ++ ".load" in
      o <- (if bytes <? 4 then
              o <- put_width o bytes ;;
              Ok (o ++ (if signed_ then "_s" else "_u"))
            else Ok o) ;;
      let o := restoreNormalColor o in
      let o := put_unsigned (o ++ " align=") align in
      _ <- assert (offset =? 0)%Z ;;
      let '(o, indent) := incIndent o indent in
      o <- printFullLine_with print o indent ptr ;;
      Ok (fst (decIndent o indent))
  | Store _ bytes float_ offset align ptr value =>
      let o := o ++ "(" in
      type <- getWasmType bytes float_ ;;
      let o := (prepareColor o ++ printWasmType type) ++ ".store" in
      o <- (if bytes <? 4 then put_width o bytes else Ok o) ;;
      let o := restoreNormalColor o in
      let o := put_unsigned (o ++ " align=") align in
      _ <- assert (offset =? 0)%Z ;;
      let '(o, indent) := incIndent o indent in
      o <- printFullLine_with print o indent ptr ;;
      o <- printFullLine_with print o indent value ;;
      Ok (fst (decIndent o indent))
  | Const _ value => put_Literal o value
  | Unary type op value =>
      let o := o ++ "(" in
      let o := (prepareColor o ++ printWasmType type) ++ "." in
      o <- put_UnaryOp o op ;;
      let '(o, indent) := incIndent o indent in
      o <- printFullLine_with print o indent value ;;
      Ok (fst (decIndent o indent))
  | Binary type op left_ right_ =>
      let o := o ++ "(" in
      let o := (prepareColor o ++ printWasmType type) ++ "." in
      o <- put_BinaryOp o op ;;
      let o := restoreNormalColor o in
      let '(o, indent) := incIndent o indent in
      o <- printFullLine_with print o indent left_ ;;
      o <- printFullLine_with print o indent right_ ;;
      Ok (fst (decIndent o indent))
  | Compare _ op inputType left_ right_ =>
      let o := o ++ "(" in
      let o := (prepareColor o ++ printWasmType inputType) ++ "." in
      o <- put_RelationalOp o op ;;
      let o := restoreNormalColor o in
      let '(o, indent) := incIndent o indent in
      o <- printFullLine_with print o indent left_ ;;
      o <- printFullLine_with print o indent right_ ;;
      Ok (fst (decIndent o indent))
  | Convert _ op value =>
      let o := o ++ "(" in
      let o := prepareColor o in
      o <- put_ConvertOp o op ;;
      let o := restoreNormalColor o in
      let '(o, indent) := incIndent o indent in
      o <- printFullLine_with print o indent value ;;
      Ok (fst (decIndent o indent))
  | Host _ _ _ => Fatal PureVirtualCall
  end.

Definition printFullLine := printFullLine_with print.
Definition printLines := printLines_with print.
Definition printBody := printBody_with print.

End Printer.

(** The two things builds do at the missing [return]. *)
Definition returns_to_caller : result unit := Ok tt.

Definition ends_the_process : result unit := Fatal FlowedOffTheEnd.

(** ** Globals *)

Record NameType : Type := mkNameType {
  NameType_name : Name;
  NameType_type : WasmType
}.

Record Function : Type := mkFunction {
  Function_name : Name;
  Function_result : WasmType;
  Function_params : list NameType;
  Function_locals : list NameType;
  Function_body : option Expression
}.

(** ** Simple WebAssembly AST walker *)

(** A walker is an object with fields of its own, which its hooks read and
    write: a hook is a computation over the state [S] of the walker. *)
Definition State (S A : Type) : Type := S -> A * S.

Definition ret {S A : Type} (a : A) : State S A := fun s => (a, s).

Definition and_then {S A B : Type} (m : State S A) (k : A -> State S B) : State S B :=
  fun s => let '(a, s) := m s in k a s.

Declare Scope walker_scope.
Notation "x <- m ;; k" := (and_then m (fun x => k))
  (at level 61, m at next level, right associativity) : walker_scope.

(** The virtual methods of [WasmWalker].  Each receives the node and returns
    the pointer that replaces it. *)
Record WasmWalker (S : Type) : Type := mkWasmWalker {
  walkBlock : Expression -> State S (option Expression);
  walkIf : Expression -> State S (option Expression);
  walkLoop : Expression -> State S (option Expression);
  walkLabel : Expression -> State S (option Expression);
  walkBreak : Expression -> State S (option Expression);
  walkSwitch : Expression -> State S (option Expression);
  walkCall : Expression -> State S (option Expression);
  walkCallImport : Expression -> State S (option Expression);
  walkCallIndirect : Expression -> State S (option Expression);
  walkGetLocal : Expression -> State S (option Expression);
  walkSetLocal : Expression -> State S (option Expression);
  walkLoad : Expression -> State S (option Expression);
  walkStore : Expression -> State S (option Expression);
  walkConst : Expression -> State S (option Expression);
  walkUnary : Expression -> State S (option Expression);
  walkBinary : Expression -> State S (option Expression);
  walkCompare : Expression -> State S (option Expression);
  walkConvert : Expression -> State S (option Expression);
  walkHost : Expression -> State S (option Expression);
  walkNop : Expression -> State S (option Expression)
}.
Arguments walkBlock {S} _ _ _.
Arguments walkIf {S} _ _ _.
Arguments walkLoop {S} _ _ _.
Arguments walkLabel {S} _ _ _.
Arguments walkBreak {S} _ _ _.
Arguments walkSwitch {S} _ _ _.
Arguments walkCall {S} _ _ _.
Arguments walkCallImport {S} _ _ _.
Arguments walkCallIndirect {S} _ _ _.
Arguments walkGetLocal {S} _ _ _.
Arguments walkSetLocal {S} _ _ _.
Arguments walkLoad {S} _ _ _.
Arguments walkStore {S} _ _ _.
Arguments walkConst {S} _ _ _.
Arguments walkUnary {S} _ _ _.
Arguments walkBinary {S} _ _ _.
Arguments walkCompare {S} _ _ _.
Arguments walkConvert {S} _ _ _.
Arguments walkHost {S} _ _ _.
Arguments walkNop {S} _ _ _.

(** The methods as [WasmWalker] itself defines them: [return curr;]. *)
Definition keep {S : Type} (curr : Expression) : State S (option Expression) :=
  ret (Some curr).

Definition default_walker (S : Type) : WasmWalker S :=
  mkWasmWalker S keep keep keep keep keep keep keep keep keep keep
                 keep keep keep keep keep keep keep keep keep keep.

Section Walk.

Local Open Scope walker_scope.

Variable S : Type.
Variable w : WasmWalker S.

Section WalkChildren.

(** [walk] on a node, as seen by the code that walks the children. *)
Variable walk_node : Expression -> State S (option Expression).

(** [if (!curr) return curr;] and then the dispatch on the node. *)
Definition walk_with (curr : option Expression) : State S (option Expression) :=
  match curr with
  | None => ret None
  | Some e => walk_node e
  end.

(** [for (z = 0; z < list.size(); z++) list[z] = walk(list[z]);] *)
Definition walkList_with : ExpressionList -> State S ExpressionList :=
  fix loop (l : ExpressionList) : State S ExpressionList :=
    match l with
    | [] => ret []
    | e :: rest =>
        e <- walk_with e ;;
        rest <- loop rest ;;
        ret (e :: rest)
    end.

(** [for (auto& curr : cast->cases) curr.body = walk(curr.body);] *)
Definition walkCases_with
    : list (Case Expression) -> State S (list (Case Expression)) :=
  fix loop (l : list (Case Expression)) : State S (list (Case Expression)) :=
    match l with
    | [] => ret []
    | curr :: rest =>
        body <- walk_with (Case_body curr) ;;
        rest <- loop rest ;;
        ret (mkCase (Case_value curr) body (Case_fallthru curr) :: rest)
    end.

End WalkChildren.

(** [WasmWalker::walk] below its null test: the chain of [dynamic_cast]
    tests, in the order of the source.  [CallImport] derives from [Call],
    so the test for [Call] succeeds on a [CallImport] node and the test
    for [CallImport] after it is never reached.  The final [abort()] is
    for a class outside this list. *)
Fixpoint walk_node (curr : Expression) {struct curr}
    : State S (option Expression) :=
  match curr with
  | Block type name list_ =>
      list_ <- walkList_with walk_node list_ ;;
      walkBlock w (Block type name list_)
  | If type condition ifTrue ifFalse =>
      condition <- walk_with walk_node condition ;;
      ifTrue <- walk_with walk_node ifTrue ;;
      ifFalse <- walk_with walk_node ifFalse ;;
      walkIf w (If type condition ifTrue ifFalse)
  | Loop type out in_ body =>
      body <- walk_with walk_node body ;;
      walkLoop w (Loop type out in_ body)
  | Label type name => walkLabel w (Label type name)
  | Break type name condition value =>
      condition <- walk_with walk_node condition ;;
      value <- walk_with walk_node value ;;
      walkBreak w (Break type name condition value)
  | Switch type name value cases default_ =>
      value <- walk_with walk_node value ;;
      cases <- walkCases_with walk_node cases ;;
      default_ <- walk_with walk_node default_ ;;
      walkSwitch w (Switch type name value cases default_)
  | Call type target operands =>
      operands <- walkList_with walk_node operands ;;
      walkCall w (Call type target operands)
  | CallImport type target operands =>
      operands <- walkList_with walk_node operands ;;
      walkCall w (CallImport type target operands)
  | CallIndirect type fnType target operands =>
      target <- walk_with walk_node target ;;
      operands <- walkList_with walk_node operands ;;
      walkCallIndirect w (CallIndirect type fnType target operands)
  | GetLocal type id => walkGetLocal w (GetLocal type id)
  | SetLocal type id value =>
      value <- walk_with walk_node value ;;
      walkSetLocal w (SetLocal type id value)
  | Load type bytes signed_ float_ offset align ptr =>
      ptr <- walk_with walk_node ptr ;;
      walkLoad w (Load type bytes signed_ float_ offset align ptr)
  | Store type bytes float_ offset align ptr value =>
      ptr <- walk_with walk_node ptr ;;
      value <- walk_with walk_node value ;;
      walkStore w (Store type bytes float_ offset align ptr value)
  | Const type value => walkConst w (Const type value)
  | Unary type op value =>
      value <- walk_with walk_node value ;;
      walkUnary w (Unary type op value)
  | Binary type op left_ right_ =>
      left_ <- walk_with walk_node left_ ;;
      right_ <- walk_with walk_node right_ ;;
      walkBinary w (Binary type op left_ right_)
  | Compare type op inputType left_ right_ =>
      left_ <- walk_with walk_node left_ ;;
      right_ <- walk_with walk_node right_ ;;
      walkCompare w (Compare type op inputType left_ right_)
  | Convert type op value =>
      value <- walk_with walk_node value ;;
      walkConvert w (Convert type op value)
  | Host type op operands =>
      operands <- walkList_with walk_node operands ;;
      walkHost w (Host type op operands)
  | Nop type => walkNop w (Nop type)
  end.

Definition walk : option Expression -> State S (option Expression) :=
  walk_with walk_node.

Definition walkList : ExpressionList -> State S ExpressionList :=
  walkList_with walk_node.

Definition walkCases : list (Case Expression) -> State S (list (Case Expression)) :=
  walkCases_with walk_node.

(** [func->body = walk(func->body);] *)
Definition startWalk (func : Function) : State S Function :=
  body <- walk (Function_body func) ;;
  ret (mkFunction (Function_name func) (Function_result func)
                  (Function_params func) (Function_locals func) body).

End Walk.

Arguments walk {S} w curr _.
Arguments walk_node {S} w curr _.
Arguments walkList {S} w _ _.
Arguments walkCases {S} w _ _.
Arguments startWalk {S} w func _.

(** ** The children of a node

    The child slots of each class, in the order of the table of the
    specification: the order in which the classes declare them. *)
Definition children (e : Expression) : list (option Expression) :=
  match e with
  | Nop _ => []
  | Block _ _ list_ => list_
  | If _ condition ifTrue ifFalse => [condition; ifTrue; ifFalse]
  | Loop _ _ _ body => [body]
  | Label _ _ => []
  | Break _ _ condition value => [condition; value]
  | Switch _ _ value cases default_ =>
      value :: map Case_body cases ++ [default_]
  | Call _ _ operands => operands
  | CallImport _ _ operands => operands
  | CallIndirect _ _ target operands => target :: operands
  | GetLocal _ _ => []
  | SetLocal _ _ value => [value]
  | Load _ _ _ _ _ _ ptr => [ptr]
  | Store _ _ _ _ _ ptr value => [ptr; value]
  | Const _ _ => []
  | Unary _ _ value => [value]
  | Binary _ _ left_ right_ => [left_; right_]
  | Compare _ _ _ left_ right_ => [left_; right_]
  | Convert _ _ value => [value]
  | Host _ _ operands => operands
  end.

(** A property of the node a pointer leads to; it holds of the null
    pointer. *)
Definition on_ptr (P : Expression -> Prop) (p : option Expression) : Prop :=
  match p with
  | None => True
  | Some e => P e
  end.

(** Induction on the tree: a property that passes from the children of a
    node to the node holds of every tree. *)
Lemma Expression_children_ind (P : Expression -> Prop) :
  (forall e, Forall (on_ptr P) (children e) -> P e) ->
  forall e, P e.
Proof.
  intros step. fix IH 1. intros e. apply step.
  destruct e; simpl; repeat constructor;
    try (match goal with
         | |- on_ptr P ?p => destruct p as [x|]; simpl; [apply IH | exact I]
         end).
  - induction list_ as [|[x|] l IHl]; constructor; simpl; auto.
  - induction cases as [|[v [x|] ft] l IHl]; simpl.
    + constructor; [|constructor]. destruct default_ as [x|]; simpl; auto.
    + constructor; simpl; auto.
    + constructor; simpl; auto.
  - induction operands as [|[x|] l IHl]; constructor; simpl; auto.
  - induction operands as [|[x|] l IHl]; constructor; simpl; auto.
  - induction operands as [|[x|] l IHl]; constructor; simpl; auto.
  - induction operands as [|[x|] l IHl]; constructor; simpl; auto.
Qed.

(** ** The order of the hook calls *)

(** The twenty hooks of a walker. *)
Inductive HookName : Type :=
| Hook_Block | Hook_If | Hook_Loop | Hook_Label | Hook_Break | Hook_Switch
| Hook_Call | Hook_CallImport | Hook_CallIndirect | Hook_GetLocal
| Hook_SetLocal | Hook_Load | Hook_Store | Hook_Const | Hook_Unary
| Hook_Binary | Hook_Compare | Hook_Convert | Hook_Host | Hook_Nop.

Definition hook {S : Type} (w : WasmWalker S) (k : HookName)
    : Expression -> State S (option Expression) :=
  match k with
  | Hook_Block => walkBlock w
  | Hook_If => walkIf w
  | Hook_Loop => walkLoop w
  | Hook_Label => walkLabel w
  | Hook_Break => walkBreak w
  | Hook_Switch => walkSwitch w
  | Hook_Call => walkCall w
  | Hook_CallImport => walkCallImport w
  | Hook_CallIndirect => walkCallIndirect w
  | Hook_GetLocal => walkGetLocal w
  | Hook_SetLocal => walkSetLocal w
  | Hook_Load => walkLoad w
  | Hook_Store => walkStore w
  | Hook_Const => walkConst w
  | Hook_Unary => walkUnary w
  | Hook_Binary => walkBinary w
  | Hook_Compare => walkCompare w
  | Hook_Convert => walkConvert w
  | Hook_Host => walkHost w
  | Hook_Nop => walkNop w
  end.

(** The hook a class has of its own: [walkBlock] for [Block], and so on. *)
Definition own_hook (e : Expression) : HookName :=
  match e with
  | Nop _ => Hook_Nop
  | Block _ _ _ => Hook_Block
  | If _ _ _ _ => Hook_If
  | Loop _ _ _ _ => Hook_Loop
  | Label _ _ => Hook_Label
  | Break _ _ _ _ => Hook_Break
  | Switch _ _ _ _ _ => Hook_Switch
  | Call _ _ _ => Hook_Call
  | CallImport _ _ _ => Hook_CallImport
  | CallIndirect _ _ _ _ => Hook_CallIndirect
  | GetLocal _ _ => Hook_GetLocal
  | SetLocal _ _ _ => Hook_SetLocal
  | Load _ _ _ _ _ _ _ => Hook_Load
  | Store _ _ _ _ _ _ _ => Hook_Store
  | Const _ _ => Hook_Const
  | Unary _ _ _ => Hook_Unary
  | Binary _ _ _ _ => Hook_Binary
  | Compare _ _ _ _ _ => Hook_Compare
  | Convert _ _ _ => Hook_Convert
  | Host _ _ _ => Hook_Host
  end.

(** The hook the chain of tests in [walk] reaches for a node: the first test
    that succeeds decides, and [Call] is tested before [CallImport]. *)
Definition dispatched_hook (e : Expression) : HookName :=
  match e with
  | CallImport _ _ _ => Hook_Call
  | _ => own_hook e
  end.

(** One call of a hook: which hook, and on which node. *)
Definition event : Type := HookName * Expression.

(** A walker that changes nothing and keeps a log of the calls of its
    hooks. *)
Definition record_call (k : HookName) (curr : Expression)
    : State (list event) (option Expression) :=
  fun log => (Some curr, (log ++ [(k, curr)])%list).

Definition recorder : WasmWalker (list event) :=
  mkWasmWalker (list event)
    (record_call Hook_Block) (record_call Hook_If) (record_call Hook_Loop)
    (record_call Hook_Label) (record_call Hook_Break) (record_call Hook_Switch)
    (record_call Hook_Call) (record_call Hook_CallImport)
    (record_call Hook_CallIndirect) (record_call Hook_GetLocal)
    (record_call Hook_SetLocal) (record_call Hook_Load) (record_call Hook_Store)
    (record_call Hook_Const) (record_call Hook_Unary) (record_call Hook_Binary)
    (record_call Hook_Compare) (record_call Hook_Convert) (record_call Hook_Host)
    (record_call Hook_Nop).

(** The log of a walk of [e] with the recorder. *)
Definition trace (e : Expression) : list event :=
  snd (walk_node recorder e []).

Definition trace_ptr (p : option Expression) : list event :=
  match p with
  | None => []
  | Some e => trace e
  end.

(** Post-order, written down directly: the calls for the children, child
    after child in the order of [children], and then the call for the node
    itself, by the hook [h] assigns to it. *)
Section Postorder.

Local Open Scope list_scope.

Variable h : Expression -> HookName.

Section PostorderChildren.

Variable postorder : Expression -> list event.

Definition postorder_ptr_with (p : option Expression) : list event :=
  match p with
  | None => []
  | Some e => postorder e
  end.

Definition postorder_list_with : list (option Expression) -> list event :=
  fix loop (l : list (option Expression)) : list event :=
    match l with
    | [] => []
    | p :: rest => postorder_ptr_with p ++ loop rest
    end.

Definition postorder_cases_with : list (Case Expression) -> list event :=
  fix loop (l : list (Case Expression)) : list event :=
    match l with
    | [] => []
    | c :: rest => postorder_ptr_with (Case_body c) ++ loop rest
    end.

End PostorderChildren.

Fixpoint postorder (e : Expression) {struct e} : list event :=
  match e with
  | Nop _ | Label _ _ | GetLocal _ _ | Const _ _ => []
  | Block _ _ l | Call _ _ l | CallImport _ _ l | Host _ _ l =>
      postorder_list_with postorder l
  | If _ a b c =>
      postorder_ptr_with postorder a ++ postorder_ptr_with postorder b
        ++ postorder_ptr_with postorder c
  | Loop _ _ _ a | SetLocal _ _ a | Load _ _ _ _ _ _ a | Unary _ _ a
  | Convert _ _ a =>
      postorder_ptr_with postorder a
  | Break _ _ a b | Store _ _ _ _ _ a b | Binary _ _ a b
  | Compare _ _ _ a b =>
      postorder_ptr_with postorder a ++ postorder_ptr_with postorder b
  | Switch _ _ a cases b =>
      postorder_ptr_with postorder a ++ postorder_cases_with postorder cases
        ++ postorder_ptr_with postorder b
  | CallIndirect _ _ a l =>
      postorder_ptr_with postorder a ++ postorder_list_with postorder l
  end ++ [(h e, e)].

End Postorder.

(** ** Walkers whose hooks keep the node

    A walker may do to its own state what it likes; if each of its hooks
    returns the node it was given, a walk returns the tree it was given, and
    the state goes through the calls of the hooks in the post-order of the
    tree, each node with the hook [dispatched_hook] names. *)
Section HooksKeepTheNode.

Local Open Scope list_scope.

Variable S : Type.
Variable w : WasmWalker S.
Variable act : S -> event -> S.

Hypothesis hooks_act :
  forall k curr s, hook w k curr s = (Some curr, act s (k, curr)).

Definition walked_in_postorder (e : Expression) : Prop :=
  forall s,
    walk_node w e s = (Some e, fold_left act (postorder dispatched_hook e) s).

Lemma walk_with_acts (p : option Expression) :
  on_ptr walked_in_postorder p ->
  forall s,
    walk_with S (walk_node w) p s
    = (p, fold_left act (postorder_ptr_with (postorder dispatched_hook) p) s).
Proof.
  destruct p as [e|]; simpl; intros H s.
  - apply H.
  - reflexivity.
Qed.

Lemma walkList_with_acts (l : list (option Expression)) :
  Forall (on_ptr walked_in_postorder) l ->
  forall s,
    walkList_with S (walk_node w) l s
    = (l, fold_left act (postorder_list_with (postorder dispatched_hook) l) s).
Proof.
  induction 1 as [|p l Hp Hl IH]; intros s; simpl.
  - reflexivity.
  - unfold and_then. rewrite (walk_with_acts p Hp), IH, fold_left_app.
    reflexivity.
Qed.

Lemma walkCases_with_acts (cases : list (Case Expression)) :
  Forall (on_ptr walked_in_postorder) (map Case_body cases) ->
  forall s,
    walkCases_with S (walk_node w) cases s
    = (cases,
       fold_left act (postorder_cases_with (postorder dispatched_hook) cases) s).
Proof.
  induction cases as [|[v body ft] rest IH]; simpl; intros H s.
  - reflexivity.
  - inversion H as [|? ? Hp Hrest]; subst. unfold and_then.
    rewrite (walk_with_acts body Hp), (IH Hrest), fold_left_app.
    reflexivity.
Qed.

Lemma Forall_on_ptr_app (P : Expression -> Prop) (l : list (option Expression))
    (p : option Expression) :
  Forall (on_ptr P) (l ++ [p]) -> Forall (on_ptr P) l /\ on_ptr P p.
Proof.
  intros H. apply Forall_app in H. destruct H as [Hl Hp].
  split; [exact Hl | now inversion Hp].
Qed.

Lemma walk_node_acts (e : Expression) : walked_in_postorder e.
Proof.
  induction e as [e IH] using Expression_children_ind.
  intros s.
  destruct e; simpl in IH; simpl; unfold and_then;
    repeat match goal with
      | H : Forall _ (_ :: _) |- _ => inversion H; clear H; subst
      | H : Forall _ (_ ++ [_]) |- _ =>
          apply Forall_on_ptr_app in H; destruct H
      end;
    repeat match goal with
      | H : on_ptr _ ?p |- context [walk_with S _ ?p ?s0] =>
          rewrite (walk_with_acts p H s0)
      | H : Forall _ ?l |- context [walkList_with S _ ?l ?s0] =>
          rewrite (walkList_with_acts l H s0)
      | H : Forall _ (map Case_body ?l)
        |- context [walkCases_with S _ ?l ?s0] =>
          rewrite (walkCases_with_acts l H s0)
      end;
    rewrite ?fold_left_app; simpl;
    match goal with
    | |- _ = (Some ?n, _) => apply (hooks_act (dispatched_hook n))
    end.
Qed.

Lemma walk_acts (p : option Expression) (s : S) :
  walk w p s
  = (p, fold_left act (postorder_ptr_with (postorder dispatched_hook) p) s).
Proof.
  apply walk_with_acts. destruct p; simpl; auto using walk_node_acts.
Qed.

End HooksKeepTheNode.

(** *** The walker with the hooks as [WasmWalker] defines them *)

Lemma default_hooks_keep (S : Type) (k : HookName) (curr : Expression) (s : S) :
  hook (default_walker S) k curr s = (Some curr, (fun s (_ : event) => s) s (k, curr)).
Proof. destruct k; reflexivity. Qed.

Lemma fold_left_unchanged (S : Type) (l : list event) (s : S) :
  fold_left (fun s (_ : event) => s) l s = s.
Proof. induction l; simpl; auto. Qed.

Lemma walk_default (S : Type) (p : option Expression) (s : S) :
  walk (default_walker S) p s = (p, s).
Proof.
  rewrite (walk_acts S (default_walker S) _ (default_hooks_keep S)).
  now rewrite fold_left_unchanged.
Qed.

(** *** The recorder *)

Lemma recorder_hooks_keep (k : HookName) (curr : Expression) (log : list event) :
  hook recorder k curr log
  = (Some curr, (fun log ev => (log ++ [ev])%list) log (k, curr)).
Proof. destruct k; reflexivity. Qed.

Lemma fold_left_log (l log : list event) :
  fold_left (fun log ev => (log ++ [ev])%list) l log = (log ++ l)%list.
Proof.
  revert log. induction l as [|ev l IH]; intros log; simpl.
  - now rewrite app_nil_r.
  - rewrite IH, <- app_assoc. reflexivity.
Qed.

(** The recorder returns the tree it was given and adds to its log the
    calls in post-order. *)
Lemma walk_node_recorder (e : Expression) (log : list event) :
  walk_node recorder e log
  = (Some e, (log ++ postorder dispatched_hook e)%list).
Proof.
  rewrite (walk_node_acts _ recorder _ recorder_hooks_keep e log).
  now rewrite fold_left_log.
Qed.

Lemma trace_is_postorder (e : Expression) :
  trace e = postorder dispatched_hook e.
Proof. unfold trace. now rewrite walk_node_recorder. Qed.

(** Every class but [CallImport] is dispatched to its own hook. *)
Lemma dispatched_hook_own (e : Expression) :
  (forall type target operands, e <> CallImport type target operands) ->
  dispatched_hook e = own_hook e.
Proof. destruct e; intros H; try reflexivity. now elim (H type target operands). Qed.

(** No walk calls [walkCallImport]. *)
Lemma postorder_no_CallImport (e n : Expression) :
  ~ In (Hook_CallImport, n) (postorder dispatched_hook e).
Proof.
  induction e as [e IH] using Expression_children_ind.
  assert (ptr_ok : forall p, on_ptr (fun e => ~ In (Hook_CallImport, n)
                     (postorder dispatched_hook e)) p ->
                   ~ In (Hook_CallImport, n)
                     (postorder_ptr_with (postorder dispatched_hook) p)).
  { intros [x|]; simpl; tauto. }
  assert (list_ok : forall l, Forall (on_ptr (fun e => ~ In (Hook_CallImport, n)
                     (postorder dispatched_hook e))) l ->
                   ~ In (Hook_CallImport, n)
                     (postorder_list_with (postorder dispatched_hook) l)).
  { induction 1 as [|p l Hp Hl IHl]; simpl; [tauto|].
    rewrite in_app_iff. intros [H|H]; [now apply (ptr_ok p)|now apply IHl]. }
  assert (cases_ok : forall l, Forall (on_ptr (fun e => ~ In (Hook_CallImport, n)
                     (postorder dispatched_hook e))) (map Case_body l) ->
                   ~ In (Hook_CallImport, n)
                     (postorder_cases_with (postorder dispatched_hook) l)).
  { induction l as [|c l IHl]; simpl; [tauto|]. intros H.
    inversion H as [|? ? Hp Hl]; subst.
    rewrite in_app_iff. intros [H'|H']; [now apply (ptr_ok (Case_body c))|now apply IHl]. }
  destruct e; simpl in IH; simpl;
    repeat match goal with
      | H : Forall _ (_ :: _) |- _ => inversion H; clear H; subst
      | H : Forall _ (_ ++ [_])%list |- _ =>
          apply Forall_on_ptr_app in H; destruct H
      end;
    rewrite ?in_app_iff; simpl;
    intros Hin;
    repeat match goal with
      | H : _ \/ _ |- _ => destruct H
      | H : (_, _) = (_, _) |- _ => discriminate H
      | H : In _ (postorder_ptr_with _ ?p) |- _ => now apply (ptr_ok p)
      | H : In _ (postorder_list_with _ ?l) |- _ => now apply (list_ok l)
      | H : In _ (postorder_cases_with _ ?l) |- _ => now apply (cases_ok l)
      | H : False |- _ => destruct H
      end.
Qed.

(** ** What printing adds to the stream *)

Lemma append_assoc (a b c : string) : (a ++ b) ++ c = a ++ (b ++ c).
Proof. induction a as [|x a IH]; simpl; [reflexivity | now rewrite IH]. Qed.

Lemma append_empty_r (a : string) : a ++ EmptyString = a.
Proof. induction a as [|x a IH]; simpl; [reflexivity | now rewrite IH]. Qed.

(** The text of an indentation of [indent] levels. *)
Definition indentation (indent : N) : string := doIndent EmptyString indent.

Lemma doIndent_append (o : ostream) (indent : N) :
  doIndent o indent = o ++ indentation indent.
Proof.
  unfold indentation, doIndent.
  induction indent as [|n IH] using N.peano_ind.
  - simpl. now rewrite append_empty_r.
  - rewrite !N.iter_succ, IH, append_assoc. reflexivity.
Qed.

(** A writer either adds one and the same text to whatever stream it is
    given, or ends the process whatever stream it is given. *)
Definition writes (f : ostream -> result ostream) (r : result string) : Prop :=
  forall o, f o = (s <- r ;; Ok (o ++ s)).

Definition writer (f : ostream -> result ostream) : Prop :=
  exists r, writes f r.


Lemma writer_ok (s : string) : writer (fun o => Ok (o ++ s)).
Proof. now exists (Ok s). Qed.

Lemma writer_fatal (e : fatal) : writer (fun _ => Fatal e).
Proof. now exists (Fatal e). Qed.

Lemma writer_bind (f g : ostream -> result ostream) :
  writer f -> writer g -> writer (fun o => o <- f o ;; g o).
Proof.
  intros [rf Hf] [rg Hg].
  exists (a <- rf ;; b <- rg ;; Ok (a ++ b)).
  intros o. rewrite (Hf o).
  destruct rf as [a|e]; simpl; [|reflexivity].
  rewrite (Hg (o ++ a)).
  destruct rg as [b|e]; simpl; [|reflexivity].
  now rewrite append_assoc.
Qed.

Lemma writer_ext (f g : ostream -> result ostream) :
  (forall o, f o = g o) -> writer g -> writer f.
Proof. intros E [r H]. exists r. intros o. now rewrite E. Qed.

#[local] Arguments unsigned_inc : simpl never.
#[local] Arguments unsigned_dec : simpl never.
#[local] Arguments doIndent : simpl never.
#[local] Arguments indentation : simpl never.
#[local] Arguments decimal_int : simpl never.
#[local] Arguments decimal_unsigned : simpl never.
#[local] Arguments printFullLine_with : simpl never.
#[local] Arguments printLines_with : simpl never.

Ltac unfold_stream :=
  unfold printBody_with, put_Literal, printDouble, printOpening,
    printMinorOpening, prepareMajorColor, prepareColor, prepareMinorColor,
    restoreNormalColor, Colors.red, Colors.magenta, Colors.orange,
    Colors.green, Colors.bold, Colors.normal, put_Name, Name_is, put_int,
    put_unsigned, put_UnaryOp, put_BinaryOp, put_RelationalOp, put_ConvertOp,
    put_width, assert, getWasmType, incIndent, decIndent in *.

Section PrintIsAWriter.

Variable colors : Colors.scheme.
Variable numToString : double -> string.
Variable missing_return : result unit.

Definition print_writer (e : Expression) : Prop :=
  forall indent, writer
    (fun o => print colors numToString missing_return e o indent).

Lemma missing_return_writer :
  writer (fun o => _ <- missing_return ;; Ok o).
Proof.
  destruct missing_return as [[]|f].
  - apply writer_ext with (g := fun o => Ok (o ++ EmptyString)).
    + intros o. simpl. now rewrite append_empty_r.
    + apply writer_ok.
  - apply writer_fatal.
Qed.

Lemma printFullLine_writer (p : option Expression) :
  on_ptr print_writer p ->
  forall indent,
    writer (fun o => printFullLine_with missing_return
                       (print colors numToString missing_return) o indent p).
Proof.
  intros H indent. destruct p as [e|]; unfold printFullLine_with.
  - apply writer_ext with
      (g := fun o => o <- (fun o => Ok (o ++ indentation indent)) o ;;
                     (fun o => o <- print colors numToString missing_return
                                      e o indent ;;
                               (fun o => o <- (fun o => Ok (o ++ newline)) o ;;
                                         (fun o => _ <- missing_return
                                           ;; Ok o) o)
                                 o) o).
    + intros o. simpl. now rewrite doIndent_append.
    + apply writer_bind; [apply writer_ok|].
      apply writer_bind; [apply H|].
      apply writer_bind; [apply writer_ok | apply missing_return_writer].
  - apply writer_fatal.
Qed.

Lemma printLines_writer (l : list (option Expression)) :
  Forall (on_ptr print_writer) l ->
  forall indent, writer (printLines_with missing_return
    (print colors numToString missing_return) indent l).
Proof.
  intros H indent. induction H as [|p l Hp Hl IH].
  - apply writer_ext with (g := fun o => Ok (o ++ EmptyString)).
    + intros o. now rewrite append_empty_r.
    + apply writer_ok.
  - apply writer_ext with
      (g := fun o => o <- printFullLine_with missing_return
        (print colors numToString missing_return) o indent p ;;
                     printLines_with missing_return
                       (print colors numToString missing_return) indent l o).
    + reflexivity.
    + apply writer_bind; [now apply printFullLine_writer | exact IH].
Qed.

Ltac children_facts indent :=
  repeat match goal with
    | H : Forall _ (_ :: _) |- _ => inversion H; clear H; subst
    | H : Forall _ (_ ++ [_])%list |- _ => clear H
    end;
  repeat match goal with
    | H : on_ptr _ ?p |- _ =>
        apply printFullLine_writer with (indent := unsigned_inc indent) in H;
        destruct H as [[?|?] H]; unfold writes in H; simpl in H
    | H : Forall (on_ptr _) ?l |- _ =>
        apply printLines_writer with (indent := unsigned_inc indent) in H;
        destruct H as [[?|?] H]; unfold writes in H; simpl in H
    end.

Ltac split_cases :=
  repeat match goal with
    | |- context [match ?x with _ => _ end] => destruct x
    end.

Ltac finish_writer :=
  intros ?; simpl;
  repeat match goal with
    | H : forall o, _ = _ |- _ => rewrite !H; simpl
    end;
  rewrite ?doIndent_append, ?append_assoc; reflexivity.

Ltac close_writer :=
  first [ eexists (Ok _); finish_writer | eexists (Fatal _); finish_writer ].

Lemma print_is_writer (e : Expression) : print_writer e.
Proof.
  induction e as [e IH] using Expression_children_ind.
  intros indent. unfold writer, writes.
  destruct e; simpl in IH; children_facts indent;
    simpl; unfold_stream; simpl; split_cases; close_writer.
Qed.

End PrintIsAWriter.

(** ** The text of a tree *)

Section Render.

Variable colors : Colors.scheme.
Variable numToString : double -> string.
Variable missing_return : result unit.

(** What [print] writes for a node at a given indentation. *)
Definition render (e : Expression) (indent : N) : result string :=
  print colors numToString missing_return e EmptyString indent.



(** The opening parenthesis and the mnemonic in its color, as [Load],
    [Store], [Binary], [Compare] and [Convert] write them. *)
Definition opened (o : ostream) (mnemonic : string) : ostream :=
  restoreNormalColor colors (prepareColor colors (o ++ "(") ++ mnemonic).

End Render.

(** ** Properties of the type helpers and of literals *)

(** C8: the size of a value type is 4 for i32, 8 for i64, 4 for f32 and 8
    for f64, and asking for the size of [none] ends the process; [none] is
    the only type without a size. *)
Theorem getWasmTypeSize_table :
  getWasmTypeSize i32 = Ok 4 /\
  getWasmTypeSize i64 = Ok 8 /\
  getWasmTypeSize f32 = Ok 4 /\
  getWasmTypeSize f64 = Ok 8 /\
  getWasmTypeSize none = Fatal Aborted /\
  forall type, is_fatal (getWasmTypeSize type) <-> type = none.
Proof.
  repeat split; try reflexivity.
  - destruct type; intros [f H]; simpl in H; congruence.
  - intros ->. now exists Aborted.
Qed.

(** C9: after [set(v)] a [Const] node holds [v] as its value and the type
    tag of [v] as its output type, whatever it held before. *)
Theorem Const_set_type_follows_value (type : WasmType) (value value_ : Literal) :
  Const_set (Const type value) value_ = Const (Literal_type value_) value_ /\
  Const_value (Const_set (Const type value) value_) = Some value_ /\
  Expression_type (Const_set (Const type value) value_) = Literal_type value_.
Proof. repeat split. Qed.

(** C10: writing a literal whose tag is [none], the tag of a literal made by
    the default constructor, ends the process; a literal tagged i32, i64,
    f32 or f64 is written. *)
Theorem put_Literal_none_fatal (colors : Colors.scheme)
    (numToString : double -> string) (o : ostream) :
  Literal_type Literal_default = none /\
  put_Literal colors numToString o Literal_default = Fatal Aborted /\
  forall literal,
    (is_fatal (put_Literal colors numToString o literal)
       <-> Literal_type literal = none) /\
    (succeeds (put_Literal colors numToString o literal)
       <-> In (Literal_type literal) [i32; i64; f32; f64]).
Proof.
  repeat split; try reflexivity.
  - destruct literal; intros [f H]; simpl in H; try discriminate; reflexivity.
  - destruct literal; simpl; intros H; try discriminate. now exists Aborted.
  - destruct literal; intros [a H]; simpl in H; try discriminate; simpl; tauto.
  - destruct literal; simpl; intros H;
      try (eexists; reflexivity).
    repeat (destruct H as [H|H]; try discriminate). destruct H.
Qed.

(** ** Trees and a number formatter for the examples *)

Definition one_half : double := S754_finite false 4503599627370496 (-53).
Definition minus_one_half : double := S754_finite true 4503599627370496 (-53).
Definition one_quarter : double := S754_finite false 4503599627370496 (-54).

(** The texts [JSPrinter::numToString] gives for the three values above: it
    drops the zero before the point.  Any other value is written as zero
    here; no example uses one. *)
Definition example_numToString (d : double) : string :=
  if SFeqb d one_half then ".5"
  else if SFeqb d minus_one_half then "-.5"
  else if SFeqb d one_quarter then ".25"
  else "0".

Definition get_x : option Expression := Some (GetLocal i32 (Name_of "x")).
Definition get_y : option Expression := Some (GetLocal i32 (Name_of "y")).
Definition const_1 : option Expression := Some (Const i32 (Literal_int32 1)).

(** ** Loads and stores *)

(** The widths [Load::print] and [Store::print] have a mnemonic for. *)
Definition supported_width (bytes : N) : Prop := In bytes [1; 2; 4; 8].

(** C7: printing a load or a store whose offset is not zero ends the
    process, so a load or store that is printed has offset zero; with a
    supported width it is the assertion on the offset that fails. *)
Theorem print_nonzero_offset_fatal (colors : Colors.scheme)
    (numToString : double -> string)
    (missing_return : result unit) (type : WasmType) (bytes : N)
    (signed_ float_ : bool) (offset : Z) (align : N)
    (ptr value : option Expression) (o : ostream) (indent : N) :
  offset <> 0%Z ->
  let load := Load type bytes signed_ float_ offset align ptr in
  let store := Store type bytes float_ offset align ptr value in
  is_fatal (print colors numToString missing_return load o indent) /\
  is_fatal (print colors numToString missing_return store o indent) /\
  ~ succeeds (print colors numToString missing_return load o indent) /\
  ~ succeeds (print colors numToString missing_return store o indent) /\
  (supported_width bytes ->
   print colors numToString missing_return load
     o indent = Fatal AssertionFailed /\
   print colors numToString missing_return store
     o indent = Fatal AssertionFailed).
Proof.
  intros Hoff load store. subst load store.
  assert (E : (offset =? 0)%Z = false) by now apply Z.eqb_neq.
  assert (Hload : exists f, print colors numToString missing_return
            (Load type bytes signed_ float_ offset align ptr) o indent = Fatal f
            /\ (supported_width bytes -> f = AssertionFailed)).
  { simpl. unfold getWasmType, put_width, assert, supported_width. rewrite E.
    destruct (bytes <? 4) eqn:E4; destruct (bytes =? 4) eqn:E4';
      destruct (bytes =? 8) eqn:E8; destruct (bytes =? 1) eqn:E1;
      destruct (bytes =? 2) eqn:E2; simpl;
      eexists; (split; [reflexivity|]);
      try reflexivity;
      rewrite ?N.ltb_lt, ?N.ltb_ge, ?N.eqb_eq, ?N.eqb_neq in *;
      simpl; intros H; exfalso; lia. }
  assert (Hstore : exists f, print colors numToString missing_return
            (Store type bytes float_ offset align ptr value) o indent = Fatal f
            /\ (supported_width bytes -> f = AssertionFailed)).
  { simpl. unfold getWasmType, put_width, assert, supported_width. rewrite E.
    destruct (bytes <? 4) eqn:E4; destruct (bytes =? 4) eqn:E4';
      destruct (bytes =? 8) eqn:E8; destruct (bytes =? 1) eqn:E1;
      destruct (bytes =? 2) eqn:E2; simpl;
      eexists; (split; [reflexivity|]);
      try reflexivity;
      rewrite ?N.ltb_lt, ?N.ltb_ge, ?N.eqb_eq, ?N.eqb_neq in *;
      simpl; intros H; exfalso; lia. }
  destruct Hload as [fl [Hl Hl']], Hstore as [fs [Hs Hs']].
  rewrite Hl, Hs. repeat split.
  - now exists fl.
  - now exists fs.
  - intros [a Ha]; discriminate.
  - intros [a Ha]; discriminate.
  - now rewrite Hl'.
  - now rewrite Hs'.
Qed.

Lemma print_nonzero_offset_fatal_witness :
  4%Z <> 0%Z /\
  let load := Load i32 4 false false 4 4 get_x in
  let store := Store i32 4 false 4 4 get_x const_1 in
  is_fatal (print Colors.plain example_numToString returns_to_caller load
    EmptyString 0) /\
  is_fatal (print Colors.plain example_numToString returns_to_caller store
    EmptyString 0) /\
  ~ succeeds (print Colors.plain example_numToString returns_to_caller load
    EmptyString 0) /\
  ~ succeeds (print Colors.plain example_numToString returns_to_caller store
    EmptyString 0) /\
  (supported_width 4 ->
   print Colors.plain example_numToString returns_to_caller load EmptyString 0
     = Fatal AssertionFailed /\
   print Colors.plain example_numToString returns_to_caller store EmptyString 0
     = Fatal AssertionFailed).
Proof.
  split; [discriminate|].
  apply (print_nonzero_offset_fatal Colors.plain example_numToString
           returns_to_caller i32 4 false false 4 4 get_x const_1
           EmptyString 0).
  discriminate.
Defined.

(** The mnemonic of a load and of a store as the specification derives it:
    the type from the width and the float flag, then [.load] or [.store],
    then [8] or [16] for a width of 1 or 2 bytes, then, for a load narrower
    than 4 bytes, the sign suffix. *)
Definition spec_derived_type (bytes : N) (float_ : bool) : WasmType :=
  if (bytes <? 4) || ((bytes =? 4) && negb float_) then i32
  else if bytes =? 4 then f32
  else if float_ then f64 else i64.

Definition spec_width_suffix (bytes : N) : string :=
  if bytes =? 1 then "8" else if bytes =? 2 then "16" else EmptyString.

Definition spec_load_mnemonic (bytes : N) (signed_ float_ : bool) : string :=
  printWasmType (spec_derived_type bytes float_) ++ ".load"
    ++ spec_width_suffix bytes
    ++ (if bytes <? 4 then (if signed_ then "_s" else "_u") else EmptyString).

Definition spec_store_mnemonic (bytes : N) (float_ : bool) : string :=
  printWasmType (spec_derived_type bytes float_) ++ ".store"
    ++ spec_width_suffix bytes.

Definition supported_widthb (bytes : N) : bool :=
  (bytes =? 1) || (bytes =? 2) || (bytes =? 4) || (bytes =? 8).

(** C5: a load or store with offset zero is printed as the opening
    parenthesis, the mnemonic derived from the width, the float flag and
    (for a load) the signedness, the alignment, and then its children on
    lines of their own; with a width other than 1, 2, 4 or 8 bytes the
    process is aborted instead.  A 1-byte signed non-float load has the
    mnemonic [i32.load8_s], an 8-byte float load [f64.load], a 2-byte
    non-float store [i32.store16]. *)
Theorem print_Load_Store_mnemonic (colors : Colors.scheme)
    (numToString : double -> string)
    (missing_return : result unit) (type : WasmType) (bytes : N)
    (signed_ float_ : bool) (align : N) (ptr value : option Expression)
    (o : ostream) (indent : N) :
  print colors numToString missing_return
    (Load type bytes signed_ float_ 0 align ptr) o indent
  = (if supported_widthb bytes then
       let '(o, indent) :=
         incIndent (opened colors o (spec_load_mnemonic bytes signed_ float_)
                      ++ " align=" ++ decimal_unsigned align) indent in
       o <- printFullLine colors numToString missing_return o indent ptr ;;
       Ok (fst (decIndent o indent))
     else Fatal Aborted) /\
  print colors numToString missing_return
    (Store type bytes float_ 0 align ptr value) o indent
  = (if supported_widthb bytes then
       let '(o, indent) :=
         incIndent (opened colors o (spec_store_mnemonic bytes float_)
                      ++ " align=" ++ decimal_unsigned align) indent in
       o <- printFullLine colors numToString missing_return o indent ptr ;;
       o <- printFullLine colors numToString missing_return o indent value ;;
       Ok (fst (decIndent o indent))
     else Fatal Aborted) /\
  spec_load_mnemonic 1 true false = "i32.load8_s" /\
  spec_load_mnemonic 8 signed_ true = "f64.load" /\
  spec_store_mnemonic 2 false = "i32.store16".
Proof.
  assert (Hb : bytes = 1 \/ bytes = 2 \/ bytes = 4 \/ bytes = 8 \/
               (bytes <> 1 /\ bytes <> 2 /\ bytes <> 4 /\ bytes <> 8)) by lia.
  repeat split; try reflexivity;
    destruct Hb as [-> | [-> | [-> | [-> | (n1 & n2 & n4 & n8)]]]];
    try (destruct float_, signed_;
         simpl; unfold opened, printFullLine; unfold_stream; simpl;
         rewrite ?append_assoc; reflexivity);
    unfold supported_widthb; simpl; unfold getWasmType, put_width;
    apply N.eqb_neq in n1, n2, n4, n8; rewrite n1, n2, n4, n8; simpl;
    destruct (bytes <? 4); reflexivity.
Qed.

(** The three loads and stores the specification names, printed in full
    without colors. *)
Example print_load8_s :
  print Colors.plain example_numToString returns_to_caller
    (Load i32 1 true false 0 1 get_x)
    EmptyString 0
  = Ok ("(i32.load8_s align=1" ++ newline ++ "  (get_local $x)" ++ newline ++ ")").
Proof. reflexivity. Qed.

Example print_f64_load :
  print Colors.plain example_numToString returns_to_caller
    (Load f64 8 false true 0 8 get_x)
    EmptyString 0
  = Ok ("(f64.load align=8" ++ newline ++ "  (get_local $x)" ++ newline ++ ")").
Proof. reflexivity. Qed.

Example print_store16 :
  print Colors.plain example_numToString returns_to_caller
    (Store i32 2 false 0 2 get_x const_1)
    EmptyString 0
  = Ok ("(i32.store16 align=2" ++ newline ++ "  (get_local $x)" ++ newline
          ++ "  (i32.const 1)" ++ newline ++ ")").
Proof. reflexivity. Qed.

(** ** Comparisons *)

(** The operator names of the specification. *)
Definition spec_RelationalOp_name (op : RelationalOp) : string :=
  match op with
  | Eq => "eq" | Ne => "ne"
  | LtS => "lt_s" | LtU => "lt_u" | LeS => "le_s" | LeU => "le_u"
  | GtS => "gt_s" | GtU => "gt_u" | GeS => "ge_s" | GeU => "ge_u"
  | Lt => "lt" | Le => "le" | Gt => "gt" | Ge => "ge"
  end.

(** [e] is a comparison that is printed, on every stream and at every
    indentation, as the opening parenthesis, [mnemonic], and the two
    operands on lines of their own. *)
Definition Compare_printed_with (colors : Colors.scheme)
    (numToString : double -> string)
    (missing_return : result unit) (e : Expression) (mnemonic : string)
    : Prop :=
  match e with
  | Compare _ _ _ left_ right_ =>
      forall o indent,
        print colors numToString missing_return e o indent
        = (let '(o, indent) := incIndent (opened colors o mnemonic) indent in
           o <- printFullLine colors numToString missing_return
             o indent left_ ;;
           o <- printFullLine colors numToString missing_return
             o indent right_ ;;
           Ok (fst (decIndent o indent)))
  | _ => False
  end.

(** C1, as the code has it: the mnemonic of a comparison is the value type
    of its operands, the field [inputType], then a dot and the name of the
    operator; its output type, which the constructor sets to i32, is not
    what is printed. *)
Theorem Compare_mnemonic_inputType (colors : Colors.scheme)
    (numToString : double -> string)
    (missing_return : result unit) (type : WasmType) (op : RelationalOp)
    (inputType : WasmType) (left_ right_ : option Expression) :
  Compare_printed_with colors numToString missing_return
    (Compare type op inputType left_ right_)
    (printWasmType inputType ++ "." ++ spec_RelationalOp_name op) /\
  Expression_type (new_Compare op inputType left_ right_) = i32.
Proof.
  split; [|reflexivity].
  intros o indent. destruct op; simpl; unfold opened, printFullLine;
    unfold_stream; simpl; rewrite ?append_assoc; reflexivity.
Qed.

(** C1 as stated fails: a comparison of two f64 operands has output type
    i32 and is printed as [f64.lt], not as [i32.lt] (the text is that of a
    build whose [printFullLine] returns). *)
Lemma Compare_mnemonic_not_result_type :
  let node := new_Compare Lt f64 get_x get_y in
  Expression_type node = i32 /\
  print Colors.plain example_numToString returns_to_caller node EmptyString 0
  = Ok ("(f64.lt" ++ newline ++ "  (get_local $x)" ++ newline
          ++ "  (get_local $y)" ++ newline ++ ")") /\
  ~ Compare_printed_with Colors.plain example_numToString returns_to_caller node
      (printWasmType (Expression_type node) ++ "." ++ spec_RelationalOp_name Lt).
Proof.
  repeat split.
  intros H. specialize (H EmptyString 0). vm_compute in H. discriminate H.
Qed.

(** ** The text of a literal *)

(** The two rewrites of the specification on the text of a floating-point
    number: a text that begins with [.] gets a [0] in front, and a text that
    begins with [-.] has these two characters replaced by [-0.]. *)
Definition spec_float_text (text : string) : string :=
  if prefix "." text then "0" ++ text
  else if prefix "-." text then
    "-0." ++ substring 2 (String.length text - 2)%nat text
  else text.

Lemma substring_all (s : string) : substring 0 (String.length s) s = s.
Proof. induction s as [|a s IH]; simpl; [reflexivity | now rewrite IH]. Qed.

Lemma prefix_empty (s : string) : prefix EmptyString s = true.
Proof. now destruct s. Qed.

Lemma printDouble_spec (numToString : double -> string) (o : ostream) (d : double) :
  printDouble numToString o d = o ++ spec_float_text (numToString d).
Proof.
  unfold printDouble, spec_float_text.
  destruct (numToString d) as [|a rest]; [reflexivity|].
  destruct a as [[] [] [] [] [] [] [] []]; try reflexivity.
  - (* '-' *)
    destruct rest as [|b rest]; [reflexivity|].
    destruct b as [[] [] [] [] [] [] [] []]; try reflexivity.
    simpl. rewrite prefix_empty, Nat.sub_0_r, substring_all, append_assoc.
    reflexivity.
  - (* '.' *)
    simpl. rewrite prefix_empty, append_assoc. reflexivity.
Qed.

Lemma decimal_int_reads_back (v : Z) :
  option_map Z.of_int (NilZero.int_of_string (decimal_int v)) = Some v.
Proof.
  unfold decimal_int. rewrite NilZero.isi.
  - simpl. now rewrite DecimalZ.of_to.
  - destruct v; simpl; try discriminate.
    intros H. injection H. apply DecimalPos.Unsigned.to_uint_nonnil.
  - destruct v; simpl; try discriminate.
    intros H. injection H. apply DecimalPos.Unsigned.to_uint_nonnil.
Qed.

(** A literal as [operator<<] frames it: the parenthesis, the type and
    [.const] in the minor color, the number, the parenthesis. *)
Definition const_form (colors : Colors.scheme) (o : ostream)
    (type number : string) : ostream :=
  restoreNormalColor colors
    (prepareMinorColor colors (o ++ "(") ++ type ++ ".const " ++ number) ++ ")".

(** C4: an i32 or i64 literal is written with its value in plain decimal,
    which reads back as the value; an f32 or f64 literal is written with the
    text of the number formatter after the two rewrites, so that a text
    beginning with [.] comes out beginning with [0.] and a text beginning
    with [-.] comes out beginning with [-0.]; a text that already begins
    with [0.] or [-0.] is kept.  The i32 literal -7 has the number [-7]. *)
Theorem Literal_number_text (colors : Colors.scheme)
    (numToString : double -> string) (o : ostream) :
  (forall v, put_Literal colors numToString o (Literal_int32 v)
             = Ok (const_form colors o "i32" (decimal_int v))) /\
  (forall v, put_Literal colors numToString o (Literal_int64 v)
             = Ok (const_form colors o "i64" (decimal_int v))) /\
  (forall f, put_Literal colors numToString o (Literal_float f)
             = Ok (const_form colors o "f32"
                     (spec_float_text (numToString (promote f))))) /\
  (forall d, put_Literal colors numToString o (Literal_double d)
             = Ok (const_form colors o "f64"
                     (spec_float_text (numToString d)))) /\
  (forall v, option_map Z.of_int (NilZero.int_of_string (decimal_int v)) = Some v) /\
  decimal_int (-7) = "-7" /\
  (forall rest, spec_float_text ("." ++ rest) = "0." ++ rest) /\
  (forall rest, spec_float_text ("-." ++ rest) = "-0." ++ rest) /\
  (forall rest, spec_float_text ("0." ++ rest) = "0." ++ rest) /\
  (forall rest, spec_float_text ("-0." ++ rest) = "-0." ++ rest).
Proof.
  repeat split; intros; try reflexivity.
  - unfold put_Literal, const_form; unfold_stream; simpl.
    rewrite ?append_assoc. reflexivity.
  - unfold put_Literal, const_form; unfold_stream; simpl.
    rewrite ?append_assoc. reflexivity.
  - unfold put_Literal. simpl. rewrite printDouble_spec.
    unfold const_form; unfold_stream; simpl. rewrite ?append_assoc. reflexivity.
  - unfold put_Literal. simpl. rewrite printDouble_spec.
    unfold const_form; unfold_stream; simpl. rewrite ?append_assoc. reflexivity.
  - apply decimal_int_reads_back.
  - unfold spec_float_text. simpl. now rewrite prefix_empty.
  - unfold spec_float_text. simpl.
    now rewrite prefix_empty, Nat.sub_0_r, substring_all.
Qed.

(** The three literals the specification names, written without colors. *)
Example put_Literal_minus_7 :
  put_Literal Colors.plain example_numToString EmptyString (Literal_int32 (-7))
  = Ok "(i32.const -7)".
Proof. reflexivity. Qed.

Example put_Literal_minus_one_half :
  put_Literal Colors.plain example_numToString EmptyString
    (Literal_float (S754_finite true 8388608 (-24)))
  = Ok "(f32.const -0.5)".
Proof. reflexivity. Qed.

Example put_Literal_one_quarter :
  put_Literal Colors.plain example_numToString EmptyString
    (Literal_double one_quarter)
  = Ok "(f64.const 0.25)".
Proof. reflexivity. Qed.

(** ** Absent children *)

Lemma unsigned_dec_inc (indent : N) :
  indent < UINT_RANGE -> unsigned_dec (unsigned_inc indent) = indent.
Proof.
  unfold unsigned_dec, unsigned_inc.
  change UINT_RANGE with 4294967296. intros H.
  destruct (N.eq_dec (indent + 1) 4294967296) as [E|E].
  - rewrite E, N.Div0.mod_same. simpl. rewrite N.mod_small; lia.
  - rewrite (N.mod_small (indent + 1)) by lia.
    replace (indent + 1 + (4294967296 - 1)) with (indent + 1 * 4294967296) by lia.
    rewrite N.Div0.mod_add. apply N.mod_small. lia.
Qed.




(** An [If] without a false-branch and a [Break] without children, printed
    in full without colors. *)
Example print_If_without_ifFalse :
  print Colors.plain example_numToString returns_to_caller
    (If none get_x const_1 None)
    EmptyString 0
  = Ok ("(if" ++ newline ++ "  (get_local $x)" ++ newline
          ++ "  (i32.const 1)" ++ newline ++ ")").
Proof. reflexivity. Qed.

Example print_Break_without_children :
  print Colors.plain example_numToString returns_to_caller
    (Break none (Name_of "out") None None) EmptyString 0
  = Ok ("(break $out" ++ newline ++ ")").
Proof. reflexivity. Qed.

(** In a build that ends the process at the missing [return], the [Break]
    above is printed all the same, and the [If] is not: its first child
    line does not come back. *)
Example print_Break_without_children_optimised :
  print Colors.plain example_numToString ends_the_process
    (Break none (Name_of "out") None None) EmptyString 0
  = Ok ("(break $out" ++ newline ++ ")").
Proof. reflexivity. Qed.

Example print_If_optimised :
  print Colors.plain example_numToString ends_the_process
    (If none get_x const_1 None) EmptyString 0
  = Fatal FlowedOffTheEnd.
Proof. reflexivity. Qed.

(** ** The walker of [WasmWalker] itself *)

(** C3: a walk with the hooks as [WasmWalker] defines them returns the tree
    it was given and leaves the walker as it was, for a tree and for the body
    of a function; the tree it returns is therefore printed exactly as the
    tree was before the walk. *)
Theorem default_walk_is_identity (colors : Colors.scheme)
    (numToString : double -> string)
    (missing_return : result unit) (S : Type) (s : S)
    (e : Expression) (func : Function) (o : ostream) (indent : N) :
  walk (default_walker S) (Some e) s = (Some e, s) /\
  walk (default_walker S) None s = (None, s) /\
  startWalk (default_walker S) func s = (func, s) /\
  exists e',
    fst (walk (default_walker S) (Some e) s) = Some e' /\
    print colors numToString missing_return e'
      o indent = print colors numToString missing_return e o indent.
Proof.
  repeat split.
  - apply walk_default.
  - unfold startWalk, and_then. rewrite walk_default. now destruct func.
  - exists e. now rewrite walk_default.
Qed.

(** ** The hook of [CallImport] *)

(** C2, at a [CallImport] node: the operands are walked in order and then a
    hook is called with the node, but it is [walkCall]; [walkCallImport],
    the hook of the class, is not called, so the log of the recorder is not
    the post-order of the tree with every node at its own hook. *)
Theorem walk_CallImport_calls_walkCall :
  let node := CallImport none (Name_of "f") [get_x; const_1] in
  own_hook node = Hook_CallImport /\
  trace node
  = [(Hook_GetLocal, GetLocal i32 (Name_of "x"));
     (Hook_Const, Const i32 (Literal_int32 1));
     (Hook_Call, node)] /\
  postorder own_hook node
  = [(Hook_GetLocal, GetLocal i32 (Name_of "x"));
     (Hook_Const, Const i32 (Literal_int32 1));
     (Hook_CallImport, node)] /\
  trace node <> postorder own_hook node /\
  (forall type target operands,
     trace (CallImport type target operands)
     = (postorder_list_with (postorder dispatched_hook) operands
          ++ [(Hook_Call, CallImport type target operands)])%list) /\
  (forall e n, ~ In (Hook_CallImport, n) (trace e)).
Proof.
  repeat split.
  - discriminate.
  - intros type target operands. now rewrite trace_is_postorder.
  - intros e n. rewrite trace_is_postorder. apply postorder_no_CallImport.
Qed.

(** *** Trees without a [CallImport] node *)

Section AnyChild.

Variable f : Expression -> bool.

Definition any_ptr_with (p : option Expression) : bool :=
  match p with
  | None => false
  | Some e => f e
  end.

Definition any_list_with : list (option Expression) -> bool :=
  fix loop (l : list (option Expression)) : bool :=
    match l with
    | [] => false
    | p :: rest => any_ptr_with p || loop rest
    end.

Definition any_case_with : list (Case Expression) -> bool :=
  fix loop (l : list (Case Expression)) : bool :=
    match l with
    | [] => false
    | c :: rest => any_ptr_with (Case_body c) || loop rest
    end.

End AnyChild.

(** Whether a tree has a [CallImport] node. *)
Fixpoint has_CallImport (e : Expression) {struct e} : bool :=
  match e with
  | CallImport _ _ _ => true
  | Nop _ | Label _ _ | GetLocal _ _ | Const _ _ => false
  | Block _ _ l | Call _ _ l | Host _ _ l => any_list_with has_CallImport l
  | If _ a b c =>
      any_ptr_with has_CallImport a || any_ptr_with has_CallImport b
        || any_ptr_with has_CallImport c
  | Loop _ _ _ a | SetLocal _ _ a | Load _ _ _ _ _ _ a | Unary _ _ a
  | Convert _ _ a =>
      any_ptr_with has_CallImport a
  | Break _ _ a b | Store _ _ _ _ _ a b | Binary _ _ a b
  | Compare _ _ _ a b =>
      any_ptr_with has_CallImport a || any_ptr_with has_CallImport b
  | Switch _ _ a cases b =>
      any_ptr_with has_CallImport a || any_case_with has_CallImport cases
        || any_ptr_with has_CallImport b
  | CallIndirect _ _ a l =>
      any_ptr_with has_CallImport a || any_list_with has_CallImport l
  end.

Definition own_postorder (e : Expression) : Prop :=
  has_CallImport e = false ->
  postorder dispatched_hook e = postorder own_hook e.

Lemma own_postorder_ptr (p : option Expression) :
  on_ptr own_postorder p ->
  any_ptr_with has_CallImport p = false ->
  postorder_ptr_with (postorder dispatched_hook) p
  = postorder_ptr_with (postorder own_hook) p.
Proof. destruct p as [e|]; simpl; auto. Qed.

Lemma own_postorder_list (l : list (option Expression)) :
  Forall (on_ptr own_postorder) l ->
  any_list_with has_CallImport l = false ->
  postorder_list_with (postorder dispatched_hook) l
  = postorder_list_with (postorder own_hook) l.
Proof.
  induction 1 as [|p l Hp Hl IH]; simpl; intros H; [reflexivity|].
  apply orb_false_elim in H. destruct H as [H1 H2].
  now rewrite (own_postorder_ptr p Hp H1), (IH H2).
Qed.

Lemma own_postorder_cases (l : list (Case Expression)) :
  Forall (on_ptr own_postorder) (map Case_body l) ->
  any_case_with has_CallImport l = false ->
  postorder_cases_with (postorder dispatched_hook) l
  = postorder_cases_with (postorder own_hook) l.
Proof.
  induction l as [|c l IH]; simpl; intros HF H; [reflexivity|].
  inversion HF as [|? ? Hp Hl]; subst.
  apply orb_false_elim in H. destruct H as [H1 H2].
  now rewrite (own_postorder_ptr (Case_body c) Hp H1), (IH Hl H2).
Qed.

Lemma postorder_own_hook (e : Expression) : own_postorder e.
Proof.
  induction e as [e IH] using Expression_children_ind.
  unfold own_postorder.
  destruct e; simpl in IH; simpl; intros H; try discriminate H;
    repeat match goal with
      | H : Forall _ (_ :: _) |- _ => inversion H; clear H; subst
      | H : Forall _ (_ ++ [_])%list |- _ =>
          apply Forall_on_ptr_app in H; destruct H
      | H : _ || _ = false |- _ => apply orb_false_elim in H; destruct H
      end;
    repeat match goal with
      | H : on_ptr _ ?p, H' : any_ptr_with _ ?p = false |- _ =>
          rewrite (own_postorder_ptr p H H'); clear H
      | H : Forall _ (map Case_body ?l), H' : any_case_with _ ?l = false |- _ =>
          rewrite (own_postorder_cases l H H'); clear H
      | H : Forall _ ?l, H' : any_list_with _ ?l = false |- _ =>
          rewrite (own_postorder_list l H H'); clear H
      end;
    reflexivity.
Qed.

(** Apart from [CallImport] the walk is in post-order with every node at
    its own hook: on a tree without a [CallImport] node the log of the
    recorder is the calls for the children, child after child in the order
    of [children], and then the call of the hook of the node itself. *)
Lemma trace_own_postorder (e : Expression) :
  has_CallImport e = false -> trace e = postorder own_hook e.
Proof.
  intros H. rewrite trace_is_postorder. now apply postorder_own_hook.
Qed.

(** *** Post-order and the table of children *)

Lemma postorder_list_children (h : Expression -> HookName)
    (l : list (option Expression)) :
  postorder_list_with (postorder h) l
  = flat_map (postorder_ptr_with (postorder h)) l.
Proof. induction l as [|p l IH]; simpl; [reflexivity | now rewrite IH]. Qed.

Lemma postorder_cases_children (h : Expression -> HookName)
    (l : list (Case Expression)) :
  postorder_cases_with (postorder h) l
  = flat_map (postorder_ptr_with (postorder h)) (map Case_body l).
Proof. induction l as [|c l IH]; simpl; [reflexivity | now rewrite IH]. Qed.

(** The post-order of a node is the post-orders of its children, in the
    order of the table, and then the node. *)
Lemma postorder_children (h : Expression -> HookName) (e : Expression) :
  postorder h e
  = (flat_map (postorder_ptr_with (postorder h)) (children e) ++ [(h e, e)])%list.
Proof.
  destruct e; simpl;
    rewrite ?postorder_list_children, ?postorder_cases_children,
      ?flat_map_app, ?app_nil_r; simpl; rewrite ?app_nil_r; reflexivity.
Qed.

(** The log of the recorder, one level at a time: the logs of the children
    in the order of the table, then the call for the node. *)
Lemma trace_children (e : Expression) :
  trace e
  = (flat_map trace_ptr (children e) ++ [(dispatched_hook e, e)])%list.
Proof.
  rewrite trace_is_postorder, postorder_children. f_equal.
  apply flat_map_ext. intros [c|]; simpl; [|reflexivity].
  symmetry. apply trace_is_postorder.
Qed.

(** * The rest of [wasm.h] *)

(** ** Arena allocation *)

Section ArenaAllocation.

Local Open Scope Z_scope.

(** [size_t] is taken at 64 bits and [int] at 32 bits. *)
Definition SIZE_T_RANGE : Z := 2 ^ 64.

Definition to_size_t (n : Z) : Z := n mod SIZE_T_RANGE.

Definition to_int (n : Z) : Z := (n + 2 ^ 31) mod 2 ^ 32 - 2 ^ 31.

(** [struct Arena].  Each chunk is a fresh array of [CHUNK] characters, known
    by its position in the vector [chunks]; of the vector the model keeps
    the size.  [index] is not set by the constructor. *)
Record Arena : Type := mkArena {
  chunks_size : nat;
  index : Z
}.

(** The address [chunks[chunk] + offset]. *)
Record pointer : Type := mkPointer {
  chunk : nat;
  offset : Z
}.

Definition CHUNK : Z := 10000.

(** [(sizeof(T) + 7) & (-8)], in [size_t]. *)
Definition currSize_of (sizeof_T : Z) : Z :=
  Z.land (to_size_t (sizeof_T + 7)) (to_size_t (-8)).

(** [Arena::alloc<T>], given [sizeof(T)]; the object is built at the
    address returned. *)
Definition alloc (sizeof_T : Z) (this : Arena) : result (pointer * Arena) :=
  let currSize := currSize_of sizeof_T in
  _ <- assert (currSize <? CHUNK) ;;
  let this :=
    if (chunks_size this =? 0)%nat
       || (CHUNK <=? to_size_t (to_size_t (index this) + currSize))
    then mkArena (S (chunks_size this)) 0
    else this in
  let ret := mkPointer (chunks_size this - 1) (index this) in
  let this :=
    mkArena (chunks_size this)
            (to_int (to_size_t (to_size_t (index this) + currSize))) in
  Ok (ret, this).

(** [Arena::clear] *)
Definition clear (this : Arena) : Arena := mkArena 0 (index this).

(** Allocations one after the other; each block is returned with the size
    asked for. *)
Fixpoint alloc_all (sizes : list Z) (this : Arena) {struct sizes}
    : result (list (pointer * Z) * Arena) :=
  match sizes with
  | [] => Ok ([], this)
  | sizeof_T :: rest =>
      r <- alloc sizeof_T this ;;
      let '(p, this) := r in
      r <- alloc_all rest this ;;
      let '(blocks, this) := r in
      Ok ((p, sizeof_T) :: blocks, this)
  end.

(** An arena whose [index] can be relied on: there is no chunk yet, or
    [index] is a multiple of 8 inside the last chunk. *)
Definition Arena_ok (a : Arena) : Prop :=
  chunks_size a = 0%nat \/ (0 <= index a < CHUNK /\ index a mod 8 = 0).

(** Two blocks that share no byte. *)
Definition disjoint (b1 b2 : pointer * Z) : Prop :=
  chunk (fst b1) <> chunk (fst b2)
  \/ offset (fst b1) + snd b1 <= offset (fst b2)
  \/ offset (fst b2) + snd b2 <= offset (fst b1).

Lemma land_minus_8 (x : Z) :
  0 <= x < SIZE_T_RANGE -> Z.land x (to_size_t (-8)) = 8 * (x / 8).
Proof.
  intros Hx. unfold to_size_t, SIZE_T_RANGE in *.
  change ((-8) mod 2 ^ 64) with (Z.shiftl (Z.ones 61) 3).
  replace (8 * (x / 8)) with (Z.shiftl (Z.shiftr x 3) 3)
    by (rewrite Z.shiftl_mul_pow2, Z.shiftr_div_pow2 by lia;
        change (2 ^ 3) with 8; lia).
  apply Z.bits_inj'. intros n Hn.
  rewrite Z.land_spec, !Z.shiftl_spec by lia.
  destruct (Z.ltb_spec n 3) as [H3|H3].
  - rewrite !(Z.testbit_neg_r _ (n - 3)) by lia. apply andb_false_r.
  - rewrite Z.shiftr_spec by lia. replace (n - 3 + 3) with n by lia.
    rewrite Z.testbit_ones by lia.
    destruct (Z.ltb_spec (n - 3) 61) as [H61|H61].
    + replace (0 <=? n - 3) with true by (symmetry; apply Z.leb_le; lia).
      apply andb_true_r.
    + rewrite andb_false_r, andb_false_r. symmetry.
      destruct (Z.eq_dec x 0) as [->|Hnz]; [apply Z.testbit_0_l|].
      apply Z.bits_above_log2; [lia|].
      assert (Z.log2 x < 64) by (apply Z.log2_lt_pow2; lia). lia.
Qed.

(** The size of a block, rounded: the next multiple of 8. *)
Lemma currSize_round (sizeof_T : Z) :
  0 <= sizeof_T -> sizeof_T + 7 < SIZE_T_RANGE ->
  currSize_of sizeof_T = 8 * ((sizeof_T + 7) / 8).
Proof.
  intros H0 H1. unfold currSize_of.
  unfold to_size_t at 1. rewrite Z.mod_small by lia.
  apply land_minus_8. lia.
Qed.

Lemma currSize_bounds (sizeof_T : Z) :
  0 <= sizeof_T -> sizeof_T + 7 < SIZE_T_RANGE ->
  sizeof_T <= currSize_of sizeof_T < sizeof_T + 8
  /\ currSize_of sizeof_T mod 8 = 0.
Proof.
  intros H0 H1. rewrite (currSize_round sizeof_T H0 H1).
  pose proof (Z.div_mod (sizeof_T + 7) 8).
  pose proof (Z.mod_pos_bound (sizeof_T + 7) 8).
  split; [lia|].
  rewrite Z.mul_comm. apply Z.mod_mul. lia.
Qed.

End ArenaAllocation.

Section ArenaProperties.

Local Open Scope Z_scope.

Lemma to_size_t_small (x : Z) : 0 <= x < SIZE_T_RANGE -> to_size_t x = x.
Proof. intros H. unfold to_size_t. now apply Z.mod_small. Qed.

Lemma to_int_small (x : Z) : - 2 ^ 31 <= x < 2 ^ 31 -> to_int x = x.
Proof. intros H. unfold to_int. rewrite Z.mod_small; lia. Qed.

(** A size [sizeof] can give: not negative, and small enough for
    [sizeof(T) + 7] not to wrap. *)
Definition size_ok (sizeof_T : Z) : Prop :=
  0 <= sizeof_T /\ sizeof_T + 7 < SIZE_T_RANGE.

(** One allocation, in full. *)
Lemma alloc_step (sizeof_T : Z) (a a' : Arena) (p : pointer) :
  Arena_ok a -> size_ok sizeof_T ->
  alloc sizeof_T a = Ok (p, a') ->
  currSize_of sizeof_T < CHUNK /\
  S (chunk p) = chunks_size a' /\
  index a' = offset p + currSize_of sizeof_T /\
  0 <= offset p /\ offset p mod 8 = 0 /\
  index a' < CHUNK /\ index a' mod 8 = 0 /\
  ((chunks_size a' = chunks_size a /\ chunks_size a <> 0%nat
    /\ offset p = index a)
   \/ (chunks_size a' = S (chunks_size a) /\ offset p = 0)).
Proof.
  intros Hok [Hs0 Hs1] Halloc.
  destruct (currSize_bounds sizeof_T Hs0 Hs1) as [Hc Hc8].
  unfold alloc, assert in Halloc.
  destruct (Z.ltb_spec (currSize_of sizeof_T) CHUNK) as [Hlt|Hge];
    [|discriminate Halloc].
  cbn [bind] in Halloc.
  assert (HR : CHUNK + CHUNK < SIZE_T_RANGE) by reflexivity.
  assert (H31 : CHUNK + CHUNK < 2 ^ 31) by reflexivity.
  destruct (Nat.eqb_spec (chunks_size a) 0) as [Hz|Hnz].
  - simpl in Halloc. injection Halloc as <- <-. simpl.
    rewrite to_size_t_small, to_int_small by lia.
    repeat split; try lia; try reflexivity.
  - destruct Hok as [Hz|[Hi Hi8]]; [contradiction|].
    rewrite (to_size_t_small (index a)) in Halloc by lia.
    rewrite (to_size_t_small (index a + _)) in Halloc by lia.
    simpl in Halloc.
    destruct (Z.leb_spec CHUNK (index a + currSize_of sizeof_T)) as [Hfull|Hfit].
    + injection Halloc as <- <-. simpl.
      rewrite to_size_t_small, to_int_small by lia.
      repeat split; try lia; try reflexivity.
    + injection Halloc as <- <-. simpl.
      rewrite (to_size_t_small (index a)) by lia.
      rewrite to_size_t_small, to_int_small by lia.
      repeat split; try lia.
      rewrite <- Z.add_mod_idemp_l, Hi8, Z.add_0_l by lia. exact Hc8.
Qed.

Lemma alloc_fatal_kind (sizeof_T : Z) (a : Arena) (f : fatal) :
  alloc sizeof_T a = Fatal f -> f = AssertionFailed.
Proof.
  unfold alloc, assert.
  destruct (currSize_of sizeof_T <? CHUNK); simpl; intros H;
    [discriminate H | now injection H].
Qed.

Lemma alloc_ok_iff (sizeof_T : Z) (a : Arena) :
  size_ok sizeof_T ->
  (succeeds (alloc sizeof_T a) <-> sizeof_T <= 9992).
Proof.
  intros [Hs0 Hs1].
  pose proof (currSize_round sizeof_T Hs0 Hs1) as Hc.
  pose proof (Z.div_mod (sizeof_T + 7) 8).
  pose proof (Z.mod_pos_bound (sizeof_T + 7) 8).
  unfold alloc, assert, CHUNK.
  destruct (Z.ltb_spec (currSize_of sizeof_T) 10000) as [Hlt|Hge]; simpl.
  - split; [lia | intros _; eexists; reflexivity].
  - split; [intros [x Hx]; discriminate Hx | lia].
Qed.

(** X1: a block handed out by [alloc] starts at a multiple of 8 in the last
    chunk, lies inside that chunk with [sizeof(T)] bytes of room below the
    new [index], and leaves [index] a multiple of 8 inside the chunk. *)
Theorem alloc_block_in_last_chunk (sizeof_T : Z) (a a' : Arena) (p : pointer) :
  Arena_ok a -> size_ok sizeof_T ->
  alloc sizeof_T a = Ok (p, a') ->
  Arena_ok a' /\
  S (chunk p) = chunks_size a' /\
  offset p mod 8 = 0 /\
  0 <= offset p /\ offset p + sizeof_T <= index a' /\ index a' < CHUNK.
Proof.
  intros Hok Hs Halloc.
  destruct (alloc_step sizeof_T a a' p Hok Hs Halloc)
    as (Hc & Hchunk & Hidx & Hp0 & Hp8 & Hi & Hi8 & _).
  destruct Hs as [Hs0 Hs1].
  destruct (currSize_bounds sizeof_T Hs0 Hs1) as [Hb _].
  repeat split; try lia.
  right. repeat split; lia.
Qed.

Lemma alloc_block_in_last_chunk_witness :
  Arena_ok (mkArena 1 24) /\ size_ok 20 /\
  alloc 20 (mkArena 1 24) = Ok (mkPointer 0 24, mkArena 1 48) /\
  (Arena_ok (mkArena 1 48) /\
   S (chunk (mkPointer 0 24)) = chunks_size (mkArena 1 48) /\
   offset (mkPointer 0 24) mod 8 = 0 /\
   0 <= offset (mkPointer 0 24) /\
   offset (mkPointer 0 24) + 20 <= index (mkArena 1 48) /\
   index (mkArena 1 48) < CHUNK).
Proof.
  assert (H1 : Arena_ok (mkArena 1 24))
    by (right; simpl; repeat split; (reflexivity || discriminate)).
  assert (H2 : size_ok 20) by (split; [discriminate | reflexivity]).
  assert (H3 : alloc 20 (mkArena 1 24) = Ok (mkPointer 0 24, mkArena 1 48))
    by reflexivity.
  split; [exact H1|]. split; [exact H2|]. split; [exact H3|].
  exact (alloc_block_in_last_chunk 20 (mkArena 1 24) (mkArena 1 48)
           (mkPointer 0 24) H1 H2 H3).
Defined.

(** X2: [alloc] goes through exactly for a [sizeof(T)] of at most 9992
    bytes; for a larger one its assertion fails, whatever the arena. *)
Theorem alloc_succeeds_up_to_9992 (sizeof_T : Z) (a : Arena) :
  size_ok sizeof_T ->
  (succeeds (alloc sizeof_T a) <-> sizeof_T <= 9992) /\
  (9992 < sizeof_T -> alloc sizeof_T a = Fatal AssertionFailed).
Proof.
  intros Hs. split; [now apply alloc_ok_iff|].
  intros Hbig. destruct (alloc sizeof_T a) as [r|f] eqn:E.
  - assert (Hsucc : succeeds (alloc sizeof_T a)) by (rewrite E; now exists r).
    apply (alloc_ok_iff sizeof_T a Hs) in Hsucc. lia.
  - now rewrite (alloc_fatal_kind sizeof_T a f E).
Qed.

Lemma alloc_succeeds_up_to_9992_witness :
  size_ok 9993 /\
  ((succeeds (alloc 9993 (mkArena 0 0)) <-> 9993 <= 9992) /\
   (9992 < 9993 -> alloc 9993 (mkArena 0 0) = Fatal AssertionFailed)).
Proof.
  assert (H : size_ok 9993) by (split; [discriminate | reflexivity]).
  split; [exact H|].
  exact (alloc_succeeds_up_to_9992 9993 (mkArena 0 0) H).
Defined.

(** A block at or above the place the next allocation of [a] starts from:
    in a chunk [a] does not have yet, or in its last chunk from [index]
    on. *)
Definition above_cursor (a : Arena) (b : pointer * Z) : Prop :=
  (chunks_size a <= chunk (fst b))%nat
  \/ (S (chunk (fst b)) = chunks_size a /\ index a <= offset (fst b)).

Lemma alloc_all_blocks (sizes : list Z) :
  forall (a a' : Arena) (blocks : list (pointer * Z)),
    Arena_ok a -> Forall size_ok sizes ->
    alloc_all sizes a = Ok (blocks, a') ->
    Arena_ok a' /\
    Forall (above_cursor a) blocks /\
    Forall (fun b => 0 <= offset (fst b) /\ offset (fst b) + snd b < CHUNK
                     /\ offset (fst b) mod 8 = 0
                     /\ (chunk (fst b) < chunks_size a')%nat) blocks /\
    (chunks_size a <= chunks_size a')%nat /\
    ForallOrdPairs disjoint blocks /\
    List.length blocks = List.length sizes.
Proof.
  induction sizes as [|sz rest IH]; intros a a' blocks Hok Hsizes Hall.
  - simpl in Hall. injection Hall as <- <-.
    repeat split; auto; constructor.
  - simpl in Hall. inversion Hsizes as [|? ? Hsz Hrest]; subst.
    destruct (alloc sz a) as [[p a1]|f] eqn:Ea; [|discriminate Hall].
    cbn [bind] in Hall.
    destruct (alloc_all rest a1) as [[bs a2]|f] eqn:Er; [|discriminate Hall].
    cbn [bind] in Hall. injection Hall as <- <-.
    destruct (alloc_step sz a a1 p Hok Hsz Ea)
      as (Hc & Hchunk & Hidx & Hp0 & Hp8 & Hi & Hi8 & Hcase).
    pose proof Hsz as Hsz'.
    destruct Hsz as [Hs0 Hs1].
    destruct (currSize_bounds sz Hs0 Hs1) as [Hb _].
    assert (Hok1 : Arena_ok a1) by (right; repeat split; lia).
    destruct (IH a1 a2 bs Hok1 Hrest Er)
      as (Hok2 & Habove & Hin & Hmono & Hdis & Hlen).
    repeat split; auto.
    + constructor.
      * unfold above_cursor. simpl. destruct Hcase as [(E & Hn & Ho)|(E & Ho)]; lia.
      * eapply Forall_impl; [|exact Habove].
        intros b Hb1. unfold above_cursor in *.
        destruct Hcase as [(E & Hn & Ho)|(E & Ho)]; lia.
    + constructor; [simpl; repeat split; lia | exact Hin].
    + destruct Hcase as [(E & Hn & Ho)|(E & Ho)]; lia.
    + constructor; [|exact Hdis].
      eapply Forall_impl; [|exact Habove].
      intros b Hb1. unfold above_cursor in Hb1. unfold disjoint. simpl.
      destruct Hb1 as [Hb1|[Hb1 Hb2]]; [left; lia | right; left; lia].
    + simpl. now rewrite Hlen.
Qed.

(** X3: the blocks handed out by a run of allocations share no byte: any
    two of them lie in different chunks or one ends before the other
    begins; each lies inside a chunk the arena has, at a multiple of 8. *)
Theorem alloc_all_disjoint (sizes : list Z) (a a' : Arena)
    (blocks : list (pointer * Z)) :
  Arena_ok a -> Forall size_ok sizes ->
  alloc_all sizes a = Ok (blocks, a') ->
  ForallOrdPairs disjoint blocks /\
  Forall (fun b => 0 <= offset (fst b) /\ offset (fst b) + snd b < CHUNK
                   /\ offset (fst b) mod 8 = 0
                   /\ (chunk (fst b) < chunks_size a')%nat) blocks /\
  map snd blocks = sizes.
Proof.
  intros Hok Hsizes Hall.
  destruct (alloc_all_blocks sizes a a' blocks Hok Hsizes Hall)
    as (_ & _ & Hin & _ & Hdis & _).
  repeat split; auto.
  clear Hin Hdis Hok Hsizes. revert a a' blocks Hall.
  induction sizes as [|sz rest IH]; intros a a' blocks Hall; simpl in Hall.
  - now injection Hall as <- <-.
  - destruct (alloc sz a) as [[p a1]|f]; [|discriminate Hall].
    cbn [bind] in Hall.
    destruct (alloc_all rest a1) as [[bs a2]|f] eqn:Er; [|discriminate Hall].
    cbn [bind] in Hall. injection Hall as <- <-.
    simpl. f_equal. exact (IH a1 a2 bs Er).
Qed.

Lemma alloc_all_disjoint_witness :
  Arena_ok (mkArena 0 (-5)) /\ Forall size_ok [20; 9000; 9000; 1] /\
  alloc_all [20; 9000; 9000; 1] (mkArena 0 (-5))
  = Ok ([(mkPointer 0 0, 20); (mkPointer 0 24, 9000); (mkPointer 1 0, 9000);
         (mkPointer 1 9000, 1)], mkArena 2 9008) /\
  (ForallOrdPairs disjoint
     [(mkPointer 0 0, 20); (mkPointer 0 24, 9000); (mkPointer 1 0, 9000);
      (mkPointer 1 9000, 1)] /\
   Forall (fun b => 0 <= offset (fst b) /\ offset (fst b) + snd b < CHUNK
                    /\ offset (fst b) mod 8 = 0
                    /\ (chunk (fst b) < chunks_size (mkArena 2 9008))%nat)
     [(mkPointer 0 0, 20); (mkPointer 0 24, 9000); (mkPointer 1 0, 9000);
      (mkPointer 1 9000, 1)] /\
   map snd [(mkPointer 0 0, 20); (mkPointer 0 24, 9000); (mkPointer 1 0, 9000);
            (mkPointer 1 9000, 1)] = [20; 9000; 9000; 1]).
Proof.
  assert (H1 : Arena_ok (mkArena 0 (-5))) by (left; reflexivity).
  assert (H2 : Forall size_ok [20; 9000; 9000; 1])
    by (repeat constructor; discriminate).
  assert (H3 : alloc_all [20; 9000; 9000; 1] (mkArena 0 (-5))
               = Ok ([(mkPointer 0 0, 20); (mkPointer 0 24, 9000);
                      (mkPointer 1 0, 9000); (mkPointer 1 9000, 1)], mkArena 2 9008))
    by reflexivity.
  split; [exact H1|]. split; [exact H2|]. split; [exact H3|].
  exact (alloc_all_disjoint _ _ _ _ H1 H2 H3).
Defined.

(** X4: after [clear] the arena has no chunk, and the next allocation opens
    a first chunk and returns its start, whatever [index] was left at. *)
Theorem alloc_after_clear (sizeof_T : Z) (a : Arena) :
  size_ok sizeof_T -> sizeof_T <= 9992 ->
  chunks_size (clear a) = 0%nat /\
  Arena_ok (clear a) /\
  alloc sizeof_T (clear a)
  = Ok (mkPointer 0 0, mkArena 1 (8 * ((sizeof_T + 7) / 8))).
Proof.
  intros [Hs0 Hs1] Hsmall.
  split; [reflexivity|]. split; [left; reflexivity|].
  pose proof (currSize_round sizeof_T Hs0 Hs1) as Hc.
  pose proof (Z.div_mod (sizeof_T + 7) 8).
  pose proof (Z.mod_pos_bound (sizeof_T + 7) 8).
  unfold alloc, assert, clear. simpl chunks_size.
  destruct (Z.ltb_spec (currSize_of sizeof_T) CHUNK) as [Hlt|Hge];
    [|unfold CHUNK in Hge; lia].
  simpl. unfold CHUNK in Hlt.
  rewrite to_size_t_small by (unfold SIZE_T_RANGE; lia).
  rewrite to_int_small by lia. now rewrite Hc.
Qed.

Lemma alloc_after_clear_witness :
  size_ok 20 /\ 20 <= 9992 /\
  (chunks_size (clear (mkArena 3 8)) = 0%nat /\
   Arena_ok (clear (mkArena 3 8)) /\
   alloc 20 (clear (mkArena 3 8))
   = Ok (mkPointer 0 0, mkArena 1 (8 * ((20 + 7) / 8)))).
Proof.
  assert (H1 : size_ok 20) by (split; [discriminate | reflexivity]).
  assert (H2 : 20 <= 9992) by discriminate.
  split; [exact H1|]. split; [exact H2|].
  exact (alloc_after_clear 20 (mkArena 3 8) H1 H2).
Defined.

End ArenaProperties.

(** ** Which trees can be printed *)

Section Required.

(** Whether a call of [printFullLine] that gets to its end goes back to the
    caller. *)
Variable returns : bool.

Variable f : Expression -> bool.

(** A child the printer dereferences: it has to be there, and its line has
    to come back from [printFullLine]. *)
Definition required_with (p : option Expression) : bool :=
  match p with
  | None => false
  | Some e => f e && returns
  end.

(** A child the printer tests first. *)
Definition optional_with (p : option Expression) : bool :=
  match p with
  | None => true
  | Some e => f e && returns
  end.

Definition all_required_with : list (option Expression) -> bool :=
  fix loop (l : list (option Expression)) : bool :=
    match l with
    | [] => true
    | p :: rest => required_with p && loop rest
    end.

End Required.

(** The nodes [print] gets through: those with the names, children,
    operators, widths and literals it needs, all the way down, in a build
    where [printFullLine] returns; in a build where it does not, those of
    them that print no child.  The label of a [Block] and the labels of a
    [Loop] may be null, and the cases and the default of a [Switch] are not
    looked at. *)
Fixpoint printable (returns : bool) (e : Expression) {struct e} : bool :=
  match e with
  | Nop _ => true
  | Block _ _ list_ => all_required_with returns (printable returns) list_
  | If _ condition ifTrue ifFalse =>
      required_with returns (printable returns) condition
        && required_with returns (printable returns) ifTrue
        && optional_with returns (printable returns) ifFalse
  | Loop _ _ _ body => required_with returns (printable returns) body
  | Label _ _ => false
  | Break _ name condition value =>
      Name_is name && optional_with returns (printable returns) condition
        && optional_with returns (printable returns) value
  | Switch _ name value _ _ =>
      Name_is name && required_with returns (printable returns) value
  | Call _ target operands | CallImport _ target operands =>
      Name_is target && all_required_with returns (printable returns) operands
  | CallIndirect _ fnType target operands =>
      match fnType with
      | None => false
      | Some type => Name_is (FunctionType_name type)
      end
        && required_with returns (printable returns) target
        && all_required_with returns (printable returns) operands
  | GetLocal _ id => Name_is id
  | SetLocal _ id value =>
      Name_is id && required_with returns (printable returns) value
  | Load _ bytes _ _ offset _ ptr =>
      supported_widthb bytes && (offset =? 0)%Z
        && required_with returns (printable returns) ptr
  | Store _ bytes _ offset _ ptr value =>
      supported_widthb bytes && (offset =? 0)%Z
        && required_with returns (printable returns) ptr
        && required_with returns (printable returns) value
  | Const _ value =>
      match value with
      | Literal_default => false
      | _ => true
      end
  | Unary _ op value =>
      match op with
      | Clz | Neg | Floor => true
      | _ => false
      end && required_with returns (printable returns) value
  | Binary _ _ left_ right_ | Compare _ _ _ left_ right_ =>
      required_with returns (printable returns) left_
        && required_with returns (printable returns) right_
  | Convert _ op value =>
      match op with
      | ConvertUInt32 | ConvertSInt32 | TruncSFloat64 => true
      | _ => false
      end && required_with returns (printable returns) value
  | Host _ _ _ => false
  end.

Definition is_ok {A : Type} (r : result A) : bool :=
  match r with
  | Ok _ => true
  | Fatal _ => false
  end.

Lemma is_ok_succeeds {A : Type} (r : result A) :
  is_ok r = true <-> succeeds r.
Proof.
  destruct r as [a|f]; simpl; split; intros H;
    try reflexivity; try discriminate H.
  - now exists a.
  - destruct H as [a H]. discriminate H.
Qed.

Section PrintablePrints.

Variable colors : Colors.scheme.
Variable numToString : double -> string.
Variable missing_return : result unit.

Definition ok_when_printable (e : Expression) : Prop :=
  forall indent o,
    is_ok (print colors numToString missing_return e o indent)
      = printable (is_ok missing_return) e.

Lemma printFullLine_writer_any (p : option Expression) (indent : N) :
  writer (fun o => printFullLine_with missing_return
    (print colors numToString missing_return) o indent p).
Proof.
  apply printFullLine_writer.
  destruct p; simpl; auto using print_is_writer.
Qed.

Lemma printLines_writer_any (l : list (option Expression)) (indent : N) :
  writer (printLines_with missing_return
    (print colors numToString missing_return) indent l).
Proof.
  apply printLines_writer.
  induction l as [|[e|] l IH]; constructor; simpl; auto using print_is_writer.
Qed.

Lemma printFullLine_ok (p : option Expression) :
  on_ptr ok_when_printable p ->
  forall indent o,
    is_ok (printFullLine_with missing_return
      (print colors numToString missing_return) o indent p)
    = required_with (is_ok missing_return) (printable (is_ok missing_return)) p.
Proof.
  intros H indent o. destruct p as [e|]; unfold printFullLine_with; simpl.
  - rewrite <- (H indent (doIndent o indent)).
    destruct (print colors numToString missing_return e (doIndent o indent)
                indent); simpl; [|reflexivity].
    now destruct missing_return as [[]|f].
  - reflexivity.
Qed.

Lemma printLines_ok (l : list (option Expression)) :
  Forall (on_ptr ok_when_printable) l ->
  forall indent o,
    is_ok (printLines_with missing_return
      (print colors numToString missing_return) indent l o)
    = all_required_with (is_ok missing_return)
      (printable (is_ok missing_return)) l.
Proof.
  induction 1 as [|p l Hp Hl IH]; intros indent o.
  - reflexivity.
  - change (printLines_with missing_return
    (print colors numToString missing_return) indent (p :: l) o)
      with (o <- printFullLine_with missing_return
        (print colors numToString missing_return) o indent p ;;
            printLines_with missing_return
              (print colors numToString missing_return) indent l o).
    simpl all_required_with. rewrite <- (printFullLine_ok p Hp indent o).
    destruct (printFullLine_with missing_return
      (print colors numToString missing_return) o indent p);
      simpl; [apply IH | reflexivity].
Qed.

Ltac child_outcomes indent :=
  repeat match goal with
    | H : Forall _ (_ :: _) |- _ => inversion H; clear H; subst
    | H : Forall _ (_ ++ [_])%list |- _ => clear H
    end;
  repeat match goal with
    | H : on_ptr _ ?p |- _ =>
        let Hw := fresh "Hw" in
        let Hb := fresh "Hb" in
        pose proof (printFullLine_ok p H (unsigned_inc indent) EmptyString) as Hb;
        destruct (printFullLine_writer_any p (unsigned_inc indent)) as [[?|?] Hw];
        unfold writes in Hw; simpl in Hw;
        rewrite Hw in Hb; simpl in Hb; clear H
    | H : Forall (on_ptr _) ?l |- _ =>
        let Hw := fresh "Hw" in
        let Hb := fresh "Hb" in
        pose proof (printLines_ok l H (unsigned_inc indent) EmptyString) as Hb;
        destruct (printLines_writer_any l (unsigned_inc indent)) as [[?|?] Hw];
        unfold writes in Hw; simpl in Hw;
        rewrite Hw in Hb; simpl in Hb; clear H
    end.

Ltac case_split :=
  repeat match goal with
    | |- context [match ?x with _ => _ end] => destruct x
    end.

Ltac width_cases bytes :=
  let H := fresh "Hwidth" in
  assert (H : bytes = 1 \/ bytes = 2 \/ bytes = 4 \/ bytes = 8
              \/ (bytes <> 1 /\ bytes <> 2 /\ bytes <> 4 /\ bytes <> 8))
    by lia;
  destruct H as [-> | [-> | [-> | [-> | (?n1 & ?n2 & ?n4 & ?n8)]]]];
  repeat match goal with
    | H : _ <> _ |- _ => apply N.eqb_neq in H
    end.

Ltac close_ok :=
  simpl in *; try congruence;
  repeat match goal with
    | H : forall o, _ = _ |- _ => rewrite !H; simpl
    end;
  repeat match goal with
    | H : true = _ |- _ => rewrite <- H; clear H
    | H : false = _ |- _ => rewrite <- H; clear H
    end;
  simpl; first [reflexivity | discriminate | congruence].

Lemma print_ok_printable (e : Expression) : ok_when_printable e.
Proof.
  induction e as [e IH] using Expression_children_ind.
  intros indent o.
  destruct e; simpl in IH; child_outcomes indent;
    repeat match goal with
      | n : Name |- _ => destruct n as [[?|]]
      | t : option FunctionType |- _ => destruct t as [[[[?|]] ? ?]|]
      end;
    try width_cases bytes;
    simpl; unfold supported_widthb; unfold_stream; simpl;
    repeat match goal with
      | H : (_ =? _) = false |- _ => rewrite H; clear H
      end;
    simpl; case_split; close_ok.
Qed.

End PrintablePrints.

(** X5: in every build, [print] gets through a tree exactly when the tree
    is [printable] for what the build does at the missing [return] of
    [printFullLine]; on any other tree it ends the process.  Where
    [printFullLine] does not return, the trees printed are those that
    print no child line. *)
Theorem print_succeeds_iff_printable (colors : Colors.scheme)
    (numToString : double -> string)
    (missing_return : result unit) (e : Expression) (o : ostream)
    (indent : N) :
  (succeeds (print colors numToString missing_return e o indent)
   <-> printable (is_ok missing_return) e = true) /\
  (is_fatal (print colors numToString missing_return e o indent)
   <-> printable (is_ok missing_return) e = false).
Proof.
  pose proof (print_ok_printable colors numToString missing_return e indent o)
    as H.
  destruct (print colors numToString missing_return e o indent) as [a|f];
    simpl in H; rewrite <- H; split; split; intros H'; try reflexivity;
    try discriminate H'.
  - now exists a.
  - destruct H' as [f Hf]. discriminate Hf.
  - destruct H' as [a Ha]. discriminate Ha.
  - now exists f.
Qed.

(** X6: [print] only adds to the stream: what it writes for a node, or the
    way it ends the process, is the same whatever the stream holds
    already. *)
Theorem print_appends_to_stream (colors : Colors.scheme)
    (numToString : double -> string)
    (missing_return : result unit) (e : Expression) (o : ostream)
    (indent : N) :
  print colors numToString missing_return e o indent
  = (text <- print colors numToString missing_return e EmptyString indent
    ;; Ok (o ++ text)).
Proof.
  destruct (print_is_writer colors numToString missing_return e indent)
    as [r H].
  rewrite (H o), (H EmptyString). now destruct r.
Qed.

(** ** The shape of the text *)

(** A text that ends with a closing parenthesis. *)
Definition closes (s : string) : Prop := exists m, s = m ++ ")".

Lemma closes_paren : closes ")".
Proof. now exists EmptyString. Qed.

Lemma closes_cons (a : ascii) (s : string) : closes s -> closes (String a s).
Proof. intros [m ->]. now exists (String a m). Qed.

Lemma closes_append (a s : string) : closes s -> closes (a ++ s).
Proof. intros [m ->]. exists (a ++ m). now rewrite append_assoc. Qed.

Ltac split_on_matches :=
  repeat match goal with
    | |- context [match ?x with _ => _ end] => destruct x
    end.

Ltac prove_closes :=
  repeat first [ apply closes_paren | apply closes_append | apply closes_cons ].

(** X7: the text of a node is one parenthesised form: it begins with an
    opening and ends with a closing parenthesis. *)
Theorem render_parenthesised (colors : Colors.scheme)
    (numToString : double -> string)
    (missing_return : result unit) (e : Expression) (indent : N)
    (text : string) :
  render colors numToString missing_return e indent = Ok text ->
  exists middle, text = "(" ++ middle ++ ")".
Proof.
  unfold render.
  assert (Hchild : forall p, exists r,
             forall o, printFullLine_with missing_return
               (print colors numToString missing_return) o
                         (unsigned_inc indent) p
                       = (s <- r ;; Ok (o ++ s)))
    by (intros p; apply printFullLine_writer_any).
  assert (Hlist : forall l, exists r,
             forall o, printLines_with missing_return
               (print colors numToString missing_return)
                         (unsigned_inc indent) l o
                       = (s <- r ;; Ok (o ++ s)))
    by (intros l; apply printLines_writer_any).
  assert (Hgoal : forall rest, closes rest ->
             Ok (String "(" rest) = Ok text ->
             exists middle, text = "(" ++ middle ++ ")").
  { intros rest [m ->] H. injection H as <-. now exists m. }
  destruct e;
    repeat match goal with
      | p : option Expression |- _ =>
          let H := fresh "Hw" in
          destruct (Hchild p) as [[?|?] H]; simpl in H; revert p H
      | l : list (option Expression) |- _ =>
          let H := fresh "Hw" in
          destruct (Hlist l) as [[?|?] H]; simpl in H; revert l H
      end;
    intros; clear Hchild Hlist;
    repeat match goal with
      | n : Name |- _ => destruct n as [[?|]]
      | t : option FunctionType |- _ => destruct t as [[[[?|]] ? ?]|]
      end;
    match goal with
    | H : print _ _ _ _ _ _ = Ok _ |- _ => revert H
    end;
    revert Hgoal; simpl; unfold_stream; simpl; split_on_matches; intros Hgoal;
    simpl;
    repeat match goal with
      | H : forall o, _ = _ |- _ => rewrite !H; simpl
      end;
    rewrite ?doIndent_append, ?append_assoc; simpl;
    try (intros Hfatal; discriminate Hfatal);
    (intros Htext; eapply Hgoal; [|exact Htext]; prove_closes).
Qed.

Lemma render_parenthesised_witness :
  render Colors.plain example_numToString returns_to_caller
    (Binary i32 Add get_x const_1) 0
  = Ok ("(i32.add" ++ newline ++ "  (get_local $x)" ++ newline
          ++ "  (i32.const 1)" ++ newline ++ ")") /\
  exists middle,
    "(i32.add" ++ newline ++ "  (get_local $x)" ++ newline
      ++ "  (i32.const 1)" ++ newline ++ ")"
    = "(" ++ middle ++ ")".
Proof.
  assert (H : render Colors.plain example_numToString returns_to_caller
                (Binary i32 Add get_x const_1) 0
              = Ok ("(i32.add" ++ newline ++ "  (get_local $x)" ++ newline
                      ++ "  (i32.const 1)" ++ newline ++ ")"))
    by reflexivity.
  split; [exact H|].
  exact (render_parenthesised Colors.plain example_numToString returns_to_caller
           (Binary i32 Add get_x const_1) 0 _ H).
Defined.

(** ** More on the walker *)

(** *** Walkers that differ in [walkCallImport] only *)

Section SameButCallImport.

Variable S : Type.
Variable w1 w2 : WasmWalker S.

Hypothesis same_hooks :
  forall k, k <> Hook_CallImport ->
  forall curr s, hook w1 k curr s = hook w2 k curr s.

Definition same_walk (e : Expression) : Prop :=
  forall s, walk_node w1 e s = walk_node w2 e s.

Lemma walk_with_same (p : option Expression) :
  on_ptr same_walk p ->
  forall s, walk_with S (walk_node w1) p s = walk_with S (walk_node w2) p s.
Proof. destruct p as [e|]; simpl; intros H s; [apply H | reflexivity]. Qed.

Lemma walkList_with_same (l : list (option Expression)) :
  Forall (on_ptr same_walk) l ->
  forall s,
    walkList_with S (walk_node w1) l s = walkList_with S (walk_node w2) l s.
Proof.
  induction 1 as [|p l Hp Hl IH]; intros s; simpl; [reflexivity|].
  unfold and_then. rewrite (walk_with_same p Hp s).
  destruct (walk_with S (walk_node w2) p s) as [p' s'].
  now rewrite IH.
Qed.

Lemma walkCases_with_same (cases : list (Case Expression)) :
  Forall (on_ptr same_walk) (map Case_body cases) ->
  forall s,
    walkCases_with S (walk_node w1) cases s
    = walkCases_with S (walk_node w2) cases s.
Proof.
  induction cases as [|c rest IH]; simpl; intros H s; [reflexivity|].
  inversion H as [|? ? Hp Hrest]; subst. unfold and_then.
  rewrite (walk_with_same (Case_body c) Hp s).
  destruct (walk_with S (walk_node w2) (Case_body c) s) as [p' s'].
  now rewrite (IH Hrest).
Qed.

Lemma walk_node_same (e : Expression) : same_walk e.
Proof.
  induction e as [e IH] using Expression_children_ind.
  intros s.
  destruct e; simpl in IH; simpl; unfold and_then;
    repeat match goal with
      | H : Forall _ (_ :: _) |- _ => inversion H; clear H; subst
      | H : Forall _ (_ ++ [_])%list |- _ =>
          apply Forall_on_ptr_app in H; destruct H
      end;
    repeat match goal with
      | H : on_ptr _ ?p |- context [walk_with S (walk_node w1) ?p ?s0] =>
          rewrite (walk_with_same p H s0);
          destruct (walk_with S (walk_node w2) p s0) as [? ?]
      | H : Forall _ (map Case_body ?l)
        |- context [walkCases_with S (walk_node w1) ?l ?s0] =>
          rewrite (walkCases_with_same l H s0);
          destruct (walkCases_with S (walk_node w2) l s0) as [? ?]
      | H : Forall _ ?l |- context [walkList_with S (walk_node w1) ?l ?s0] =>
          rewrite (walkList_with_same l H s0);
          destruct (walkList_with S (walk_node w2) l s0) as [? ?]
      end;
    match goal with
    | |- _ ?n _ = _ => apply (same_hooks (dispatched_hook n)); discriminate
    end.
Qed.

End SameButCallImport.

(** A walker with [walkCallImport] overridden. *)
Definition override_walkCallImport {S : Type} (w : WasmWalker S)
    (h : Expression -> State S (option Expression)) : WasmWalker S :=
  mkWasmWalker S (walkBlock w) (walkIf w) (walkLoop w) (walkLabel w)
    (walkBreak w) (walkSwitch w) (walkCall w) h (walkCallIndirect w)
    (walkGetLocal w) (walkSetLocal w) (walkLoad w) (walkStore w)
    (walkConst w) (walkUnary w) (walkBinary w) (walkCompare w)
    (walkConvert w) (walkHost w) (walkNop w).

(** X8: overriding [walkCallImport] changes no walk: with any walker, on
    any tree and from any state, the result is the same as without the
    override. *)
Theorem walkCallImport_override_unseen (S : Type) (w : WasmWalker S)
    (h : Expression -> State S (option Expression))
    (curr : option Expression) (func : Function) (s : S) :
  walk (override_walkCallImport w h) curr s = walk w curr s /\
  startWalk (override_walkCallImport w h) func s = startWalk w func s.
Proof.
  assert (Hsame : forall k, k <> Hook_CallImport ->
            forall curr s,
              hook (override_walkCallImport w h) k curr s = hook w k curr s).
  { intros k Hk c s0. destruct k; try reflexivity. now elim Hk. }
  assert (Hwalk : forall p s0,
            walk (override_walkCallImport w h) p s0 = walk w p s0).
  { intros [e|] s0; simpl; [|reflexivity].
    apply (walk_node_same S _ _ Hsame e s0). }
  split; [apply Hwalk|].
  unfold startWalk, and_then. now rewrite Hwalk.
Qed.

(** *** One call for each node *)

Section CountChildren.

Variable count : Expression -> nat.

Definition count_ptr_with (p : option Expression) : nat :=
  match p with
  | None => O
  | Some e => count e
  end.

Definition count_list_with : list (option Expression) -> nat :=
  fix loop (l : list (option Expression)) : nat :=
    match l with
    | [] => O
    | p :: rest => (count_ptr_with p + loop rest)%nat
    end.

Definition count_cases_with : list (Case Expression) -> nat :=
  fix loop (l : list (Case Expression)) : nat :=
    match l with
    | [] => O
    | c :: rest => (count_ptr_with (Case_body c) + loop rest)%nat
    end.

End CountChildren.

(** The number of nodes of a tree. *)
Fixpoint node_count (e : Expression) {struct e} : nat :=
  S match e with
    | Nop _ | Label _ _ | GetLocal _ _ | Const _ _ => O
    | Block _ _ l | Call _ _ l | CallImport _ _ l | Host _ _ l =>
        count_list_with node_count l
    | If _ a b c =>
        count_ptr_with node_count a + count_ptr_with node_count b
          + count_ptr_with node_count c
    | Loop _ _ _ a | SetLocal _ _ a | Load _ _ _ _ _ _ a | Unary _ _ a
    | Convert _ _ a =>
        count_ptr_with node_count a
    | Break _ _ a b | Store _ _ _ _ _ a b | Binary _ _ a b
    | Compare _ _ _ a b =>
        count_ptr_with node_count a + count_ptr_with node_count b
    | Switch _ _ a cases b =>
        count_ptr_with node_count a + count_cases_with node_count cases
          + count_ptr_with node_count b
    | CallIndirect _ _ a l =>
        count_ptr_with node_count a + count_list_with node_count l
    end%nat.

Definition counted (e : Expression) : Prop :=
  List.length (postorder dispatched_hook e) = node_count e.

Lemma counted_ptr (p : option Expression) :
  on_ptr counted p ->
  List.length (postorder_ptr_with (postorder dispatched_hook) p)
  = count_ptr_with node_count p.
Proof. destruct p as [e|]; simpl; auto. Qed.

Lemma counted_list (l : list (option Expression)) :
  Forall (on_ptr counted) l ->
  List.length (postorder_list_with (postorder dispatched_hook) l)
  = count_list_with node_count l.
Proof.
  induction 1 as [|p l Hp Hl IH]; simpl; [reflexivity|].
  now rewrite length_app, (counted_ptr p Hp), IH.
Qed.

Lemma counted_cases (l : list (Case Expression)) :
  Forall (on_ptr counted) (map Case_body l) ->
  List.length (postorder_cases_with (postorder dispatched_hook) l)
  = count_cases_with node_count l.
Proof.
  induction l as [|c l IH]; simpl; intros H; [reflexivity|].
  inversion H as [|? ? Hp Hl]; subst.
  now rewrite length_app, (counted_ptr (Case_body c) Hp), (IH Hl).
Qed.

Lemma postorder_counted (e : Expression) : counted e.
Proof.
  induction e as [e IH] using Expression_children_ind.
  unfold counted.
  destruct e; simpl in IH; simpl;
    repeat match goal with
      | H : Forall _ (_ :: _) |- _ => inversion H; clear H; subst
      | H : Forall _ (_ ++ [_])%list |- _ =>
          apply Forall_on_ptr_app in H; destruct H
      end;
    rewrite ?length_app; simpl;
    repeat match goal with
      | H : on_ptr _ ?p |- _ => rewrite (counted_ptr p H); clear H
      | H : Forall _ (map Case_body ?l) |- _ =>
          rewrite (counted_cases l H); clear H
      | H : Forall _ ?l |- _ => rewrite (counted_list l H); clear H
      end;
    lia.
Qed.

(** X9: a walk calls a hook once for each node of the tree: the log of the
    recorder has as many entries as the tree has nodes, and a log that is
    not empty at the start grows by that many entries. *)
Theorem walk_calls_one_hook_per_node (e : Expression) (log : list event) :
  List.length (trace e) = node_count e /\
  List.length (snd (walk_node recorder e log))
  = (List.length log + node_count e)%nat.
Proof.
  split.
  - rewrite trace_is_postorder. apply postorder_counted.
  - rewrite walk_node_recorder. simpl.
    rewrite length_app. f_equal. apply postorder_counted.
Qed.

(** X10: with a walker whose hooks all return the node they are given,
    whatever they do to the state of the walker, a walk returns the tree it
    was given, and the state goes through the hooks in post-order: for each
    node the children first, in the order the class declares them, then
    the node, with the hook the dispatch reaches for it. *)
Theorem keeping_walker_postorder (S : Type) (w : WasmWalker S)
    (act : S -> event -> S) (curr : option Expression) (func : Function)
    (s : S) :
  (forall k node s, hook w k node s = (Some node, act s (k, node))) ->
  walk w curr s
  = (curr,
     fold_left act (postorder_ptr_with (postorder dispatched_hook) curr) s) /\
  fst (startWalk w func s) = func.
Proof.
  intros Hkeep. split.
  - destruct curr as [e|]; simpl; [|reflexivity].
    apply (walk_node_acts S w act Hkeep e s).
  - unfold startWalk, and_then.
    assert (H : walk w (Function_body func) s
                = (Function_body func,
                   fold_left act
                     (postorder_ptr_with (postorder dispatched_hook)
                        (Function_body func)) s)).
    { destruct (Function_body func) as [e|]; simpl; [|reflexivity].
      apply (walk_node_acts S w act Hkeep e s). }
    rewrite H. simpl. now destruct func.
Qed.

Lemma keeping_walker_postorder_witness :
  (forall k node s,
     hook recorder k node s
     = (Some node, (fun log ev => (log ++ [ev])%list) s (k, node))) /\
  (walk recorder (Some (Binary i32 Add get_x const_1)) []
   = (Some (Binary i32 Add get_x const_1),
      fold_left (fun log ev => (log ++ [ev])%list)
        (postorder_ptr_with (postorder dispatched_hook)
           (Some (Binary i32 Add get_x const_1))) []) /\
   fst (startWalk recorder
          (mkFunction (Name_of "f") i32 [] [] get_x) [])
   = mkFunction (Name_of "f") i32 [] [] get_x).
Proof.
  assert (H : forall k node s,
            hook recorder k node s
            = (Some node, (fun log ev => (log ++ [ev])%list) s (k, node)))
    by (intros k node s; destruct k; reflexivity).
  split; [exact H|].
  exact (keeping_walker_postorder (list event) recorder
           (fun log ev => (log ++ [ev])%list)
           (Some (Binary i32 Add get_x const_1))
           (mkFunction (Name_of "f") i32 [] [] get_x) [] H).
Defined.

(** ** The type helpers *)

(** X11: the size and the floatness of a value type give the type back:
    [getWasmType] undoes [getWasmTypeSize] and [isFloat] on i32, i64, f32
    and f64; on [none], which has no size, there is nothing to undo. *)
Theorem getWasmType_of_size_and_float (type : WasmType) :
  match getWasmTypeSize type with
  | Ok size => getWasmType size (isFloat type) = Ok type
  | Fatal f => type = none /\ f = Aborted
  end.
Proof. destruct type; simpl; auto. Qed.

(** X12: [getWasmType] aborts exactly on the widths 5, 6, 7 and above 8;
    otherwise the type it gives is never [none], is an integer type for
    every width below 4 whatever the float flag, is a float type exactly
    when the flag is set for the widths 4 and 8, and has the width as its
    size for 4 and 8 and size 4 for the narrower ones. *)
Theorem getWasmType_domain (size : N) (float_ : bool) :
  (is_fatal (getWasmType size float_) <-> (4 < size /\ size <> 8)) /\
  (forall type,
     getWasmType size float_ = Ok type ->
     type <> none /\
     isFloat type = float_ && (4 <=? size) /\
     getWasmTypeSize type = Ok (N.max size 4)).
Proof.
  unfold getWasmType.
  destruct (N.ltb_spec size 4) as [H4|H4];
    [|destruct (N.eqb_spec size 4) as [E4|E4];
      [|destruct (N.eqb_spec size 8) as [E8|E8]]].
  - split.
    + split; [intros [f H]; discriminate H | lia].
    + intros type H. injection H as <-.
      replace (4 <=? size) with false by (symmetry; apply N.leb_gt; lia).
      rewrite andb_false_r. repeat split; [discriminate|].
      simpl. f_equal. lia.
  - subst size. split.
    + split; [intros [f H]; discriminate H | lia].
    + intros type H. injection H as <-.
      destruct float_; repeat split; discriminate.
  - subst size. split.
    + split; [intros [f H]; discriminate H | lia].
    + intros type H. injection H as <-.
      destruct float_; repeat split; discriminate.
  - split.
    + split; [intros _; lia | intros _; now exists Aborted].
    + intros type H. discriminate H.
Qed.

(** ** Indentation *)

Fixpoint spaces (n : nat) : string :=
  match n with
  | O => EmptyString
  | S n => String " " (spaces n)
  end.

Lemma spaces_two_more (n : nat) : spaces n ++ "  " = spaces (S (S n)).
Proof. induction n as [|n IH]; simpl; [reflexivity | now rewrite IH]. Qed.

Lemma indentation_spaces (indent : N) :
  indentation indent = spaces (2 * N.to_nat indent).
Proof.
  unfold indentation, doIndent.
  induction indent as [|n IH] using N.peano_ind; [reflexivity|].
  rewrite N.iter_succ, IH, spaces_two_more, N2Nat.inj_succ.
  f_equal. lia.
Qed.

(** X13: [doIndent] adds two spaces for each level of indentation and
    nothing else. *)
Theorem doIndent_two_spaces_per_level (o : ostream) (indent : N) :
  doIndent o indent = o ++ spaces (2 * N.to_nat indent) /\
  String.length (spaces (2 * N.to_nat indent)) = (2 * N.to_nat indent)%nat.
Proof.
  split.
  - now rewrite doIndent_append, indentation_spaces.
  - generalize (2 * N.to_nat indent)%nat. intros n.
    induction n as [|n IH]; simpl; [reflexivity | now rewrite IH].
Qed.

(** X14: what [incIndent] does to the indentation [decIndent] undoes: the
    closing parenthesis of a form is written at the indentation its opening
    was written at, after a line break for the first child. *)
Theorem decIndent_after_incIndent (o o' : ostream) (indent : N) :
  indent < UINT_RANGE ->
  incIndent o indent = (o ++ newline, unsigned_inc indent) /\
  decIndent o' (snd (incIndent o indent))
  = (o' ++ spaces (2 * N.to_nat indent) ++ ")", indent).
Proof.
  intros H. split; [reflexivity|].
  unfold decIndent, incIndent. simpl snd.
  rewrite (unsigned_dec_inc indent H), doIndent_append, indentation_spaces.
  now rewrite append_assoc.
Qed.

Lemma decIndent_after_incIndent_witness :
  3 < UINT_RANGE /\
  (incIndent "(if" 3 = ("(if" ++ newline, unsigned_inc 3) /\
   decIndent "x" (snd (incIndent "(if" 3))
   = ("x" ++ spaces (2 * N.to_nat 3) ++ ")", 3)).
Proof.
  assert (H : 3 < UINT_RANGE) by reflexivity.
  split; [exact H|].
  exact (decIndent_after_incIndent "(if" "x" 3 H).
Defined.

(** ** Function types, functions and the module *)

Definition dquote : string := String "034" EmptyString.

(** A loop over a vector whose body writes to the stream and may end the
    process. *)
Definition for_each {A : Type} (body : A -> ostream -> result ostream)
    : list A -> ostream -> result ostream :=
  fix loop (l : list A) (o : ostream) : result ostream :=
    match l with
    | [] => Ok o
    | a :: rest =>
        o <- body a o ;;
        loop rest o
    end.

(** The comparison of two [IString]s is declared with [IString], outside
    this file, and is a parameter of [FunctionType::operator==] below.  This
    is the comparison of interned strings: both null, or the same
    characters. *)
Definition IString_eqb (a b : IString) : bool :=
  match str a, str b with
  | None, None => true
  | Some x, Some y => String.eqb x y
  | _, _ => false
  end.

Definition WasmType_eqb (a b : WasmType) : bool :=
  match a, b with
  | none, none | i32, i32 | i64, i64 | f32, f32 | f64, f64 => true
  | _, _ => false
  end.

(** [for (i = 0; i < params.size(); i++) if (params[i] != b.params[i])
    return false;], from [i] on with [todo] rounds to go; reading past the
    end of [b.params] does not happen, the sizes being equal. *)
Fixpoint params_equal_from (a b : list WasmType) (i todo : nat) {struct todo}
    : bool :=
  match todo with
  | O => true
  | S todo =>
      if negb (WasmType_eqb (nth i a none) (nth i b none)) then false
      else params_equal_from a b (S i) todo
  end.

(** [FunctionType::operator==], given the comparison of names. *)
Definition FunctionType_eq (name_eqb : Name -> Name -> bool)
    (this b : FunctionType) : bool :=
  if negb (name_eqb (FunctionType_name this) (FunctionType_name b))
  then false
  else if negb (WasmType_eqb (FunctionType_result this) (FunctionType_result b))
  then false
  else if negb (Nat.eqb (List.length (FunctionType_params this))
                        (List.length (FunctionType_params b)))
  then false
  else params_equal_from (FunctionType_params this) (FunctionType_params b) 0
         (List.length (FunctionType_params this)).

(** [FunctionType::operator!=] *)
Definition FunctionType_ne (name_eqb : Name -> Name -> bool)
    (this b : FunctionType) : bool :=
  negb (FunctionType_eq name_eqb this b).

Record Import : Type := mkImport {
  Import_name : Name;
  Import_module : Name;
  Import_base : Name;
  Import_type : FunctionType
}.

Record Export : Type := mkExport {
  Export_name : Name;
  Export_value : Name
}.

Record Table : Type := mkTable {
  Table_names : list Name
}.

(** [class Module].  A [std::map] is the list of its entries in the order
    an iteration visits them. *)
Record WasmModule : Type := mkWasmModule {
  Module_functionTypes : list (Name * option FunctionType);
  Module_imports : list (Name * Import);
  Module_exports : list Export;
  Module_table : Table;
  Module_functions : list (option Function)
}.

Section PrintGlobals.

Variable colors : Colors.scheme.
Variable numToString : double -> string.
Variable missing_return : result unit.

(** [printText]; the characters come through a pointer, and writing the
    characters of a null pointer to a stream, which C++ leaves undefined, is
    taken as the end of the process, like the other uses of a null
    pointer. *)
Definition printText (o : ostream) (str : option string) : result ostream :=
  let o := o ++ dquote in
  let o := Colors.green colors o in
  match str with
  | None => Fatal NullDereference
  | Some s =>
      let o := o ++ s in
      let o := Colors.normal colors o in
      Ok (o ++ dquote)
  end.

(** [FunctionType::print] *)
Definition FunctionType_print (this : FunctionType) (o : ostream) (indent : N)
    (full : bool) : result ostream :=
  o <- (if full then
          o <- put_Name (printOpening colors o "type" false ++ " ")
                 (FunctionType_name this) ;;
          Ok (o ++ " (func")
        else Ok o) ;;
  let o :=
    match FunctionType_params this with
    | _ :: _ =>
        let o := o ++ " " in
        let o := printMinorOpening colors o "param" in
        let o := fold_left (fun o param => (o ++ " ") ++ printWasmType param)
                   (FunctionType_params this) o in
        o ++ ")"
    | [] => o
    end in
  let o :=
    if negb (WasmType_eqb (FunctionType_result this) none) then
      let o := o ++ " " in
      (printMinorOpening colors o "result "
         ++ printWasmType (FunctionType_result this)) ++ ")"
    else o in
  Ok (if full then o ++ "))" else o).

(** [Function::print] *)
Definition Function_print (this : Function) (o : ostream) (indent : N)
    : result ostream :=
  o <- put_Name (printOpening colors o "func " true) (Function_name this) ;;
  o <- for_each (fun param o =>
                   let o := o ++ " " in
                   o <- put_Name (printMinorOpening colors o "param ")
                          (NameType_name param) ;;
                   Ok (((o ++ " ") ++ printWasmType (NameType_type param)) ++ ")"))
         (Function_params this) o ;;
  let o :=
    if negb (WasmType_eqb (Function_result this) none) then
      let o := o ++ " " in
      (printMinorOpening colors o "result "
         ++ printWasmType (Function_result this)) ++ ")"
    else o in
  let '(o, indent) := incIndent o indent in
  o <- for_each (fun local o =>
                   let o := doIndent o indent in
                   o <- put_Name (printMinorOpening colors o "local ")
                          (NameType_name local) ;;
                   Ok ((((o ++ " ") ++ printWasmType (NameType_type local))
                          ++ ")") ++ newline))
         (Function_locals this) o ;;
  o <- printFullLine colors numToString missing_return
    o indent (Function_body this) ;;
  Ok (fst (decIndent o indent)).

(** [Import::print] *)
Definition Import_print (this : Import) (o : ostream) (indent : N)
    : result ostream :=
  o <- put_Name (printOpening colors o "import " false) (Import_name this) ;;
  let o := o ++ " " in
  o <- printText o (str (Import_module this)) ;;
  let o := o ++ " " in
  o <- printText o (str (Import_base this)) ;;
  let o := o ++ " " in
  o <- FunctionType_print (Import_type this) o indent false ;;
  Ok (o ++ ")").

(** [Export::print] *)
Definition Export_print (this : Export) (o : ostream) (indent : N)
    : result ostream :=
  let o := printOpening colors o "export " false in
  o <- printText o (str (Export_name this)) ;;
  o <- put_Name (o ++ " ") (Export_value this) ;;
  Ok (o ++ ")").

(** [Table::print] *)
Definition Table_print (this : Table) (o : ostream) (indent : N)
    : result ostream :=
  let o := printOpening colors o "table" false in
  o <- for_each (fun name o => put_Name (o ++ " ") name) (Table_names this) o ;;
  Ok (o ++ ")").

(** [operator<<(std::ostream&, Module)]; the loop over the imports is
    compiled out. *)
Definition put_Module (o : ostream) (module : WasmModule) : result ostream :=
  let indent := 0 in
  let o := printOpening colors o "module" true in
  let '(o, indent) := incIndent o indent in
  let o := doIndent o indent in
  let o := (printOpening colors o "memory" false ++ " 16777216)") ++ newline in
  o <- for_each (fun curr o =>
                   let o := doIndent o indent in
                   o <- match snd curr with
                        | None => Fatal NullDereference
                        | Some type => FunctionType_print type o indent true
                        end ;;
                   Ok (o ++ newline))
         (Module_functionTypes module) o ;;
  o <- for_each (fun curr o =>
                   let o := doIndent o indent in
                   o <- Export_print curr o indent ;;
                   Ok (o ++ newline))
         (Module_exports module) o ;;
  o <- match Table_names (Module_table module) with
       | _ :: _ =>
           let o := doIndent o indent in
           o <- Table_print (Module_table module) o indent ;;
           Ok (o ++ newline)
       | [] => Ok o
       end ;;
  o <- for_each (fun curr o =>
                   let o := doIndent o indent in
                   o <- match curr with
                        | None => Fatal NullDereference
                        | Some func => Function_print func o indent
                        end ;;
                   Ok (o ++ newline))
         (Module_functions module) o ;;
  let '(o, indent) := decIndent o indent in
  Ok (o ++ newline).

End PrintGlobals.

(** *** Equality of function types *)

Lemma IString_eqb_eq (a b : IString) : IString_eqb a b = true <-> a = b.
Proof.
  destruct a as [[x|]], b as [[y|]]; unfold IString_eqb; simpl;
    split; intros H; try discriminate H; try reflexivity.
  - apply String.eqb_eq in H. now subst.
  - injection H as ->. apply String.eqb_refl.
Qed.

Lemma WasmType_eqb_eq (a b : WasmType) : WasmType_eqb a b = true <-> a = b.
Proof. destruct a, b; simpl; split; intros H; congruence. Qed.

Lemma params_equal_from_spec (a b : list WasmType) (todo : nat) :
  forall i,
    params_equal_from a b i todo = true
    <-> (forall j, (i <= j < i + todo)%nat -> nth j a none = nth j b none).
Proof.
  induction todo as [|todo IH]; intros i; simpl.
  - split; [intros _ j Hj; lia | reflexivity].
  - destruct (WasmType_eqb (nth i a none) (nth i b none)) eqn:E; simpl.
    + apply WasmType_eqb_eq in E. rewrite IH. split.
      * intros H j Hj. destruct (Nat.eq_dec j i) as [->|Hne]; [exact E|].
        apply H. lia.
      * intros H j Hj. apply H. lia.
    + split; [discriminate|]. intros H.
      assert (Hi : nth i a none = nth i b none) by (apply H; lia).
      apply WasmType_eqb_eq in Hi. congruence.
Qed.

Lemma FunctionType_eq_iff (name_eqb : Name -> Name -> bool)
    (a b : FunctionType) :
  (forall x y, name_eqb x y = true <-> x = y) ->
  (FunctionType_eq name_eqb a b = true <-> a = b).
Proof.
  intros Hname.
  destruct a as [na ra pa], b as [nb rb pb]. unfold FunctionType_eq. simpl.
  destruct (name_eqb na nb) eqn:En; simpl.
  - apply Hname in En. subst nb.
    destruct (WasmType_eqb ra rb) eqn:Er; simpl.
    + apply WasmType_eqb_eq in Er. subst rb.
      destruct (Nat.eqb_spec (List.length pa) (List.length pb)) as [El|El];
        simpl.
      * rewrite params_equal_from_spec. split.
        -- intros H. f_equal. apply (nth_ext pa pb none none El).
           intros n Hn. apply H. lia.
        -- intros H j _. injection H as Hp. now subst pb.
      * split; [discriminate|]. intros H. injection H as Hp. subst pb.
        now elim El.
    + split; [discriminate|]. intros H. injection H as Hr _. subst rb.
      rewrite (proj2 (WasmType_eqb_eq ra ra) eq_refl) in Er. discriminate Er.
  - split; [discriminate|]. intros H. injection H as Hn _ _. subst nb.
    rewrite (proj2 (Hname na na) eq_refl) in En. discriminate En.
Qed.

(** X15: if the comparison of names holds exactly of equal names,
    [operator==] on function types holds exactly when the two have the same
    name, the same result and the same parameter list, so it is reflexive,
    symmetric and transitive, and two types that differ in the name only
    are not equal; [operator!=] is its negation. *)
Theorem FunctionType_eq_decides_equality (name_eqb : Name -> Name -> bool)
    (a b c : FunctionType) :
  (forall x y, name_eqb x y = true <-> x = y) ->
  (FunctionType_eq name_eqb a b = true <-> a = b) /\
  FunctionType_eq name_eqb a a = true /\
  FunctionType_eq name_eqb a b = FunctionType_eq name_eqb b a /\
  (FunctionType_eq name_eqb a b = true -> FunctionType_eq name_eqb b c = true ->
   FunctionType_eq name_eqb a c = true) /\
  (FunctionType_name a <> FunctionType_name b ->
   FunctionType_eq name_eqb a b = false) /\
  FunctionType_ne name_eqb a b = negb (FunctionType_eq name_eqb a b).
Proof.
  intros Hname.
  pose proof (FunctionType_eq_iff name_eqb) as Hiff.
  repeat split.
  - now apply Hiff.
  - now apply Hiff.
  - now apply Hiff.
  - destruct (FunctionType_eq name_eqb a b) eqn:E1,
      (FunctionType_eq name_eqb b a) eqn:E2; try reflexivity.
    + apply Hiff in E1; [|exact Hname]. subst b.
      rewrite (proj2 (Hiff a a Hname) eq_refl) in E2. discriminate E2.
    + apply Hiff in E2; [|exact Hname]. subst b.
      rewrite (proj2 (Hiff a a Hname) eq_refl) in E1. discriminate E1.
  - intros H1 H2. apply Hiff in H1, H2; try exact Hname.
    apply Hiff; [exact Hname | congruence].
  - intros Hne. destruct (FunctionType_eq name_eqb a b) eqn:E; [|reflexivity].
    apply Hiff in E; [|exact Hname]. subst b. now elim Hne.
Qed.

Lemma FunctionType_eq_decides_equality_witness :
  (forall x y, IString_eqb x y = true <-> x = y) /\
  let a := mkFunctionType (Name_of "ii") i32 [i32; f64] in
  let b := mkFunctionType (Name_of "jj") i32 [i32; f64] in
  let c := mkFunctionType (Name_of "ii") i32 [i32; f32] in
  (FunctionType_eq IString_eqb a b = true <-> a = b) /\
  FunctionType_eq IString_eqb a a = true /\
  FunctionType_eq IString_eqb a b = FunctionType_eq IString_eqb b a /\
  (FunctionType_eq IString_eqb a b = true ->
   FunctionType_eq IString_eqb b c = true ->
   FunctionType_eq IString_eqb a c = true) /\
  (FunctionType_name a <> FunctionType_name b ->
   FunctionType_eq IString_eqb a b = false) /\
  FunctionType_ne IString_eqb a b = negb (FunctionType_eq IString_eqb a b).
Proof.
  split; [exact IString_eqb_eq|].
  exact (FunctionType_eq_decides_equality IString_eqb
           (mkFunctionType (Name_of "ii") i32 [i32; f64])
           (mkFunctionType (Name_of "jj") i32 [i32; f64])
           (mkFunctionType (Name_of "ii") i32 [i32; f32])
           IString_eqb_eq).
Defined.

(** *** The text of a function type *)

Section FunctionTypeText.

Variable colors : Colors.scheme.

(** The parameters and the result of a function type, as its short form
    writes them. *)
Definition signature_text (this : FunctionType) : string :=
  match FunctionType_params this with
  | _ :: _ =>
      " " ++ printMinorOpening colors EmptyString "param"
        ++ String.concat EmptyString
             (map (fun param => " " ++ printWasmType param)
                (FunctionType_params this))
        ++ ")"
  | [] => EmptyString
  end
  ++ match FunctionType_result this with
     | none => EmptyString
     | result =>
         " " ++ printMinorOpening colors EmptyString "result "
           ++ printWasmType result ++ ")"
     end.

Lemma concat_empty_cons (a : string) (l : list string) :
  String.concat EmptyString (a :: l) = a ++ String.concat EmptyString l.
Proof.
  destruct l as [|b l]; simpl; [now rewrite append_empty_r | reflexivity].
Qed.

Lemma params_fold (l : list WasmType) (o : ostream) :
  fold_left (fun o param => (o ++ " ") ++ printWasmType param) l o
  = o ++ String.concat EmptyString
           (map (fun param => " " ++ printWasmType param) l).
Proof.
  revert o. induction l as [|p l IH]; intros o.
  - simpl. now rewrite append_empty_r.
  - cbn [fold_left map]. rewrite IH, concat_empty_cons.
    now rewrite !append_assoc.
Qed.

Lemma FunctionType_print_short (this : FunctionType) (o : ostream) (indent : N) :
  FunctionType_print colors this o indent false
  = Ok (o ++ signature_text this).
Proof.
  unfold FunctionType_print, signature_text. cbn [bind].
  destruct this as [name result params]. cbn [FunctionType_params FunctionType_result].
  destruct params as [|p params].
  - destruct result; simpl; unfold printMinorOpening, prepareMinorColor,
      restoreNormalColor, Colors.orange, Colors.normal; simpl;
      rewrite ?append_assoc, ?append_empty_r; reflexivity.
  - rewrite params_fold.
    destruct result; cbn [WasmType_eqb negb];
      unfold printMinorOpening, prepareMinorColor,
        restoreNormalColor, Colors.orange, Colors.normal;
      cbn [append]; rewrite ?append_assoc, ?append_empty_r; reflexivity.
Qed.

(** X16: the short form of a function type cannot fail and does not
    mention the name; it writes nothing at all for a type without
    parameters and result; the full form is the short form between
    [(type $name (func] and [))], and fails if the name is null. *)
Theorem FunctionType_print_forms (this : FunctionType) (o : ostream)
    (indent : N) :
  FunctionType_print colors this o indent false
  = Ok (o ++ signature_text this) /\
  FunctionType_print colors this o indent true
  = match str (FunctionType_name this) with
    | Some name =>
        Ok (printOpening colors o "type" false ++ " $" ++ name ++ " (func"
              ++ signature_text this ++ "))")
    | None => Fatal AssertionFailed
    end /\
  signature_text (mkFunctionType (FunctionType_name this) none [])
  = EmptyString.
Proof.
  split; [apply FunctionType_print_short|]. split; [|reflexivity].
  pose proof (FunctionType_print_short this) as Hshort.
  unfold FunctionType_print in *. unfold put_Name.
  destruct (str (FunctionType_name this)) as [name|]; [|reflexivity].
  cbn [bind] in *.
  specialize (Hshort ((((printOpening colors o "type" false ++ " ") ++ "$")
                         ++ name) ++ " (func") indent).
  injection Hshort as Hshort. rewrite Hshort.
  now rewrite !append_assoc.
Qed.

End FunctionTypeText.

(** *** Which functions and modules can be printed *)

(** [returns] is as for [printable]. *)
Definition Function_printable (returns : bool) (func : Function) : bool :=
  Name_is (Function_name func)
    && forallb (fun param => Name_is (NameType_name param)) (Function_params func)
    && forallb (fun local => Name_is (NameType_name local)) (Function_locals func)
    && required_with returns (printable returns) (Function_body func).

Definition Export_printable (e : Export) : bool :=
  Name_is (Export_name e) && Name_is (Export_value e).

(** The imports are not looked at. *)
Definition Module_printable (returns : bool) (module : WasmModule) : bool :=
  forallb (fun curr => match snd curr with
                       | None => false
                       | Some type => Name_is (FunctionType_name type)
                       end) (Module_functionTypes module)
    && forallb Export_printable (Module_exports module)
    && forallb Name_is (Table_names (Module_table module))
    && forallb (fun curr => match curr with
                            | None => false
                            | Some func => Function_printable returns func
                            end) (Module_functions module).

Lemma Function_printable_no_return (func : Function) :
  Function_printable false func = false.
Proof.
  unfold Function_printable.
  destruct (Function_body func) as [e|]; simpl;
    now rewrite ?andb_false_r.
Qed.

Lemma is_ok_false_fatal {A : Type} (r : result A) :
  is_ok r = false -> is_fatal r.
Proof.
  destruct r as [a|f]; simpl; intros H; [discriminate H | now exists f].
Qed.

Lemma is_ok_bind {A B : Type} (r : result A) (k : A -> result B) (b : bool) :
  (forall a, is_ok (k a) = b) -> is_ok (x <- r ;; k x) = is_ok r && b.
Proof. intros H. destruct r as [a|f]; simpl; auto. Qed.

Lemma is_ok_for_each {A : Type} (body : A -> ostream -> result ostream)
    (g : A -> bool) :
  (forall a o, is_ok (body a o) = g a) ->
  forall l o, is_ok (for_each body l o) = forallb g l.
Proof.
  intros H l. induction l as [|a l IH]; intros o; simpl; [reflexivity|].
  rewrite (is_ok_bind (body a o) _ (forallb g l)) by (intros; apply IH).
  now rewrite H.
Qed.

Lemma is_ok_put_Name (o : ostream) (name : Name) :
  is_ok (put_Name o name) = Name_is name.
Proof. unfold put_Name, Name_is. now destruct (str name). Qed.

Section GlobalsPrintable.

Variable colors : Colors.scheme.
Variable numToString : double -> string.
Variable missing_return : result unit.

Lemma is_ok_printText (o : ostream) (name : Name) :
  is_ok (printText colors o (str name)) = Name_is name.
Proof. unfold printText, Name_is. now destruct (str name). Qed.

Lemma is_ok_FunctionType_print_full (this : FunctionType) (o : ostream)
    (indent : N) :
  is_ok (FunctionType_print colors this o indent true)
  = Name_is (FunctionType_name this).
Proof.
  unfold FunctionType_print, put_Name, Name_is.
  now destruct (str (FunctionType_name this)).
Qed.

Lemma is_ok_Function_print (func : Function) (o : ostream) (indent : N) :
  is_ok (Function_print colors numToString missing_return func o indent)
  = Function_printable (is_ok missing_return) func.
Proof.
  unfold Function_print, Function_printable, incIndent.
  erewrite is_ok_bind; [rewrite is_ok_put_Name|].
  2:{ intros o1. erewrite is_ok_bind.
      - erewrite is_ok_for_each; [reflexivity|].
        intros param o2. cbn beta zeta.
        erewrite is_ok_bind;
          [rewrite is_ok_put_Name|intros; simpl; reflexivity].
        apply andb_true_r.
      - intros o2. cbn beta zeta.
        erewrite is_ok_bind.
        + erewrite is_ok_for_each; [reflexivity|].
          intros local o3. cbn beta zeta.
          erewrite is_ok_bind;
            [rewrite is_ok_put_Name|intros; simpl; reflexivity].
          apply andb_true_r.
        + intros o3. erewrite is_ok_bind; [|intros; simpl; reflexivity].
          unfold printFullLine.
          rewrite printFullLine_ok, andb_true_r; [reflexivity|].
          destruct (Function_body func); simpl; auto using print_ok_printable. }
  now rewrite !andb_assoc.
Qed.

Lemma is_ok_Export_print (e : Export) (o : ostream) (indent : N) :
  is_ok (Export_print colors e o indent) = Export_printable e.
Proof.
  unfold Export_print, Export_printable.
  erewrite is_ok_bind; [rewrite is_ok_printText|].
  2:{ intros o1. erewrite is_ok_bind;
    [rewrite is_ok_put_Name|intros; simpl; reflexivity].
      apply andb_true_r. }
  reflexivity.
Qed.

Lemma is_ok_Table_print (t : Table) (o : ostream) (indent : N) :
  is_ok (Table_print colors t o indent) = forallb Name_is (Table_names t).
Proof.
  unfold Table_print.
  erewrite is_ok_bind; [|intros; simpl; reflexivity].
  erewrite is_ok_for_each; [apply andb_true_r|].
  intros name o1. apply is_ok_put_Name.
Qed.

Lemma is_ok_put_Module (module : WasmModule) (o : ostream) :
  is_ok (put_Module colors numToString missing_return o module)
  = Module_printable (is_ok missing_return) module.
Proof.
  unfold put_Module, Module_printable, incIndent.
  rewrite <- (andb_true_r (forallb _ (Module_functions module))).
  rewrite <- !andb_assoc.
  erewrite is_ok_bind.
  - erewrite is_ok_for_each; [reflexivity|].
    intros [name [type|]] o1; simpl; [|reflexivity].
    erewrite is_ok_bind; [|intros; simpl; reflexivity].
    rewrite is_ok_FunctionType_print_full. apply andb_true_r.
  - intros o1. erewrite is_ok_bind.
    + erewrite is_ok_for_each; [reflexivity|].
      intros e o2. cbn beta zeta.
      erewrite is_ok_bind; [|intros; simpl; reflexivity].
      rewrite is_ok_Export_print. apply andb_true_r.
    + intros o2. erewrite is_ok_bind.
      * f_equal.
        destruct (Table_names (Module_table module)) as [|n ns] eqn:E;
          [reflexivity|].
        cbn zeta. erewrite is_ok_bind; [|intros; simpl; reflexivity].
        rewrite is_ok_Table_print, E. apply andb_true_r.
      * intros o3. erewrite is_ok_bind.
        -- erewrite is_ok_for_each; [reflexivity|].
           intros [func|] o4; simpl; [|reflexivity].
           erewrite is_ok_bind; [|intros; simpl; reflexivity].
           rewrite is_ok_Function_print. apply andb_true_r.
        -- intros o4. unfold decIndent. simpl. reflexivity.
Qed.

End GlobalsPrintable.

(** X17: in a build where [printFullLine] returns, [Function::print] gets
    through exactly when the name of the function and the names of its
    parameters and locals are set and its body is there and printable; in
    a build where [printFullLine] does not return it never gets through,
    the line of the body being the last thing it prints. *)
Theorem Function_print_succeeds_iff (colors : Colors.scheme)
    (numToString : double -> string)
    (missing_return : result unit) (func : Function) (o : ostream)
    (indent : N) :
  (succeeds (Function_print colors numToString missing_return func o indent)
   <-> Function_printable (is_ok missing_return) func = true) /\
  (is_ok missing_return = false ->
   is_fatal (Function_print colors numToString missing_return func o indent)).
Proof.
  split.
  - rewrite <- is_ok_succeeds. now rewrite is_ok_Function_print.
  - intros Hbuild. apply is_ok_false_fatal.
    rewrite is_ok_Function_print, Hbuild.
    apply Function_printable_no_return.
Qed.

(** X18: in a build where [printFullLine] returns, the module is written
    exactly when every function type is there and named, every export has
    its two names, every name of the table is set and every function is
    there and printable; in a build where [printFullLine] does not return,
    a module that is written has no function.  The imports play no part,
    neither in this nor in the text. *)
Theorem put_Module_succeeds_iff (colors : Colors.scheme)
    (numToString : double -> string)
    (missing_return : result unit) (module : WasmModule) (o : ostream)
    (imports : list (Name * Import)) :
  (succeeds (put_Module colors numToString missing_return o module)
   <-> Module_printable (is_ok missing_return) module = true) /\
  (is_ok missing_return = false ->
   succeeds (put_Module colors numToString missing_return o module) ->
   Module_functions module = []) /\
  put_Module colors numToString missing_return o
    (mkWasmModule (Module_functionTypes module) imports
       (Module_exports module) (Module_table module)
       (Module_functions module))
  = put_Module colors numToString missing_return o module.
Proof.
  split; [|split; [|reflexivity]].
  - rewrite <- is_ok_succeeds. now rewrite is_ok_put_Module.
  - intros Hbuild Hok. apply is_ok_succeeds in Hok.
    rewrite is_ok_put_Module, Hbuild in Hok.
    unfold Module_printable in Hok.
    apply andb_prop in Hok. destruct Hok as [_ Hok].
    destruct (Module_functions module) as [|[func|] l]; [reflexivity| |].
    + cbn [forallb] in Hok. rewrite Function_printable_no_return in Hok.
      discriminate Hok.
    + discriminate Hok.
Qed.

(** A module with one function, written without colors by a build whose
    [printFullLine] returns. *)
Example put_Module_example :
  put_Module Colors.plain example_numToString returns_to_caller EmptyString
    (mkWasmModule [] [] [mkExport (Name_of "add") (Name_of "add")]
       (mkTable [])
       [Some (mkFunction (Name_of "add") i32
                [mkNameType (Name_of "x") i32] []
                (Some (Binary i32 Add get_x const_1)))])
  = Ok ("(module" ++ newline
          ++ "  (memory 16777216)" ++ newline
          ++ "  (export " ++ dquote ++ "add" ++ dquote ++ " $add)" ++ newline
          ++ "  (func $add (param $x i32) (result i32)" ++ newline
          ++ "    (i32.add" ++ newline
          ++ "      (get_local $x)" ++ newline
          ++ "      (i32.const 1)" ++ newline
          ++ "    )" ++ newline
          ++ "  )" ++ newline
          ++ ")" ++ newline).
Proof. reflexivity. Qed.

(** ** A walker that replaces the constants *)

(** The walker of [WasmWalker] with [walkConst] overridden by a function of
    the node alone. *)
Definition Const_walker (S : Type) (g : Expression -> option Expression)
    : WasmWalker S :=
  mkWasmWalker S keep keep keep keep keep keep keep keep keep keep
                 keep keep keep (fun curr => ret (g curr)) keep keep keep
                 keep keep keep.

Section ReplaceChildren.

Variable replace : Expression -> option Expression.

Definition replace_ptr_with (p : option Expression) : option Expression :=
  match p with
  | None => None
  | Some e => replace e
  end.

Definition replace_list_with (l : list (option Expression))
    : list (option Expression) :=
  map replace_ptr_with l.

Definition replace_cases_with (l : list (Case Expression))
    : list (Case Expression) :=
  map (fun c => mkCase (Case_value c) (replace_ptr_with (Case_body c))
                  (Case_fallthru c)) l.

End ReplaceChildren.

(** The tree with [g] applied to each [Const] node, in every slot that
    holds one, and nothing else changed. *)
Fixpoint replace_Const (g : Expression -> option Expression) (e : Expression)
    {struct e} : option Expression :=
  match e with
  | Const type value => g (Const type value)
  | Nop type => Some (Nop type)
  | Label type name => Some (Label type name)
  | GetLocal type id => Some (GetLocal type id)
  | Block type name l =>
      Some (Block type name (replace_list_with (replace_Const g) l))
  | If type a b c =>
      Some (If type (replace_ptr_with (replace_Const g) a)
              (replace_ptr_with (replace_Const g) b)
              (replace_ptr_with (replace_Const g) c))
  | Loop type out in_ a =>
      Some (Loop type out in_ (replace_ptr_with (replace_Const g) a))
  | Break type name a b =>
      Some (Break type name (replace_ptr_with (replace_Const g) a)
              (replace_ptr_with (replace_Const g) b))
  | Switch type name a cases b =>
      Some (Switch type name (replace_ptr_with (replace_Const g) a)
              (replace_cases_with (replace_Const g) cases)
              (replace_ptr_with (replace_Const g) b))
  | Call type target l =>
      Some (Call type target (replace_list_with (replace_Const g) l))
  | CallImport type target l =>
      Some (CallImport type target (replace_list_with (replace_Const g) l))
  | CallIndirect type fnType a l =>
      Some (CallIndirect type fnType (replace_ptr_with (replace_Const g) a)
              (replace_list_with (replace_Const g) l))
  | SetLocal type id a =>
      Some (SetLocal type id (replace_ptr_with (replace_Const g) a))
  | Load type bytes signed_ float_ offset align a =>
      Some (Load type bytes signed_ float_ offset align
              (replace_ptr_with (replace_Const g) a))
  | Store type bytes float_ offset align a b =>
      Some (Store type bytes float_ offset align
              (replace_ptr_with (replace_Const g) a)
              (replace_ptr_with (replace_Const g) b))
  | Unary type op a =>
      Some (Unary type op (replace_ptr_with (replace_Const g) a))
  | Binary type op a b =>
      Some (Binary type op (replace_ptr_with (replace_Const g) a)
              (replace_ptr_with (replace_Const g) b))
  | Compare type op inputType a b =>
      Some (Compare type op inputType (replace_ptr_with (replace_Const g) a)
              (replace_ptr_with (replace_Const g) b))
  | Convert type op a =>
      Some (Convert type op (replace_ptr_with (replace_Const g) a))
  | Host type op l =>
      Some (Host type op (replace_list_with (replace_Const g) l))
  end.

Section ConstWalker.

Variable S : Type.
Variable g : Expression -> option Expression.

Definition Const_replaced (e : Expression) : Prop :=
  forall s : S, walk_node (Const_walker S g) e s = (replace_Const g e, s).

Lemma walk_with_replaces (p : option Expression) :
  on_ptr Const_replaced p ->
  forall s,
    walk_with S (walk_node (Const_walker S g)) p s
    = (replace_ptr_with (replace_Const g) p, s).
Proof. destruct p as [e|]; simpl; intros H s; [apply H | reflexivity]. Qed.

Lemma walkList_with_replaces (l : list (option Expression)) :
  Forall (on_ptr Const_replaced) l ->
  forall s,
    walkList_with S (walk_node (Const_walker S g)) l s
    = (replace_list_with (replace_Const g) l, s).
Proof.
  induction 1 as [|p l Hp Hl IH]; intros s; simpl; [reflexivity|].
  unfold and_then. now rewrite (walk_with_replaces p Hp s), IH.
Qed.

Lemma walkCases_with_replaces (cases : list (Case Expression)) :
  Forall (on_ptr Const_replaced) (map Case_body cases) ->
  forall s,
    walkCases_with S (walk_node (Const_walker S g)) cases s
    = (replace_cases_with (replace_Const g) cases, s).
Proof.
  induction cases as [|c rest IH]; simpl; intros H s; [reflexivity|].
  inversion H as [|? ? Hp Hrest]; subst. unfold and_then.
  now rewrite (walk_with_replaces (Case_body c) Hp s), (IH Hrest).
Qed.

Lemma walk_node_replaces (e : Expression) : Const_replaced e.
Proof.
  induction e as [e IH] using Expression_children_ind.
  intros s.
  destruct e; simpl in IH; simpl; unfold and_then;
    repeat match goal with
      | H : Forall _ (_ :: _) |- _ => inversion H; clear H; subst
      | H : Forall _ (_ ++ [_])%list |- _ =>
          apply Forall_on_ptr_app in H; destruct H
      end;
    repeat match goal with
      | H : on_ptr _ ?p |- context [walk_with S _ ?p ?s0] =>
          rewrite (walk_with_replaces p H s0)
      | H : Forall _ (map Case_body ?l)
        |- context [walkCases_with S _ ?l ?s0] =>
          rewrite (walkCases_with_replaces l H s0)
      | H : Forall _ ?l |- context [walkList_with S _ ?l ?s0] =>
          rewrite (walkList_with_replaces l H s0)
      end;
    reflexivity.
Qed.

End ConstWalker.

(** The [Const] node with the zero of the type of its literal. *)
Definition zero_Const (curr : Expression) : option Expression :=
  match curr with
  | Const type (Literal_int32 _) => Some (Const type (Literal_int32 0))
  | Const type (Literal_int64 _) => Some (Const type (Literal_int64 0))
  | Const type (Literal_float _) => Some (Const type (Literal_float (S754_zero false)))
  | Const type (Literal_double _) => Some (Const type (Literal_double (S754_zero false)))
  | other => Some other
  end.

(** X19: what a hook returns takes the place of the node: a walker that
    overrides [walkConst] with a function of the node replaces every
    [Const] node of the tree by what the function returns for it, a null
    pointer included, and changes nothing else, in the tree or in its own
    state.  With the function that returns the zero of the same type, the
    sum of the constants 5 and 3 becomes the sum of two zeros. *)
Theorem Const_walker_replaces (S : Type) (g : Expression -> option Expression)
    (curr : option Expression) (s : S) :
  walk (Const_walker S g) curr s
  = (replace_ptr_with (replace_Const g) curr, s) /\
  fst (walk (Const_walker S zero_Const)
         (Some (Binary i32 Add (Some (Const i32 (Literal_int32 5)))
                  (Some (Const i32 (Literal_int32 3))))) s)
  = Some (Binary i32 Add (Some (Const i32 (Literal_int32 0)))
            (Some (Const i32 (Literal_int32 0)))).
Proof.
  split; [|reflexivity].
  destruct curr as [e|]; simpl; [|reflexivity].
  apply walk_node_replaces.
Qed.
